(** * libcamera pipeline handler infrastructure

    A shallow embedding of [src/libcamera/pipeline_handler.cpp]: the request
    queue of a camera ([queueRequest], [completeBuffer], [completeRequest],
    [stop]), camera registration and hot-unplug ([registerCamera],
    [cameraData], [mediaDeviceDisconnected], [disconnect]) and the static
    registry of pipeline handler factories ([registerType], [factories]).

    Objects live in stores indexed by their address ([positive]); a member
    function is a computation over the whole store so that two pointers to one
    object see each other's writes. *)

From stdpp Require Import gmap list strings.

Set Default Proof Using "Type".
#[local] Set Warnings "-clear-no-such-hyp".

(** ** Outcomes of a call *)

(** A call returns normally, trips an [ASSERT], performs an operation the
    language leaves undefined (a dangling pointer, [front()] of an empty
    list), or does not finish within the steps it was given. *)
Inductive Outcome (A : Type) : Type :=
| Ok (a : A)
| Fatal
| Undefined
| OutOfFuel.
Arguments Ok {A} a.
Arguments Fatal {A}.
Arguments Undefined {A}.
Arguments OutOfFuel {A}.

(** ** Data model *)

(** Request::Status. *)
Inductive RequestStatus := RequestPending | RequestComplete | RequestCancelled.

(** Buffer completion status. *)
Inductive BufferStatus := BufferPending | BufferCompleted | BufferCancelled.

#[global] Instance RequestStatus_eq_dec : EqDecision RequestStatus.
Proof. solve_decision. Defined.
#[global] Instance BufferStatus_eq_dec : EqDecision BufferStatus.
Proof. solve_decision. Defined.

(** A Request: [pending_] lists the buffers that still have to complete, in
    the iteration order of the container; [status_] is its completion state. *)
Record Request := mkRequest {
  pending_ : list positive;
  status_ : RequestStatus
}.

(** CameraData: the camera it belongs to (set by [registerCamera]) and the
    list of queued, not yet completed requests (a std::list<Request *>). The
    [pipe_] back pointer always designates the one handler modelled here. *)
Record CameraData := mkCameraData {
  camera_ : option positive;
  queuedRequests_ : list positive
}.

(** What an observer outside the handler sees, in order. Notifications carry
    the state of the object they announce at the time they fire. *)
Inductive Event :=
| EvBufferCompleted (camera request buffer : positive) (st : option BufferStatus)
| EvRequestComplete (camera request : positive) (st : RequestStatus)
| EvCameraDisconnect (camera : positive)
| EvAddCamera (camera : positive)
| EvRemoveCamera (camera : positive)
| EvSignalConnect (media : positive)
| EvSignalDisconnect (media : positive).

#[global] Instance Event_eq_dec : EqDecision Event.
Proof. solve_decision. Defined.

(** The handler and the objects around it.
    - [cameraData_], [cameras_]: the members of PipelineHandler.
      [cameraData_] owns its CameraData through unique_ptr, so the map holds
      the objects themselves; [cameras_] holds weak references.
    - [manager_cameras]: the shared references held by the camera manager.
    - [camera_owners]: cameras kept alive by a shared reference held
      elsewhere (the application).
    - [disconnected]: cameras that have been marked disconnected.
    - [slots]: media devices whose disconnected signal is connected to the
      handler, one entry per connection.
    - [requests], [buffers]: the live Request and Buffer objects.
    - [trace]: the events observed so far, oldest first. *)
Record World := mkWorld {
  cameraData_ : gmap positive CameraData;
  cameras_ : list positive;
  manager_cameras : list positive;
  camera_owners : gset positive;
  disconnected : gset positive;
  slots : list positive;
  requests : gmap positive Request;
  buffers : gmap positive BufferStatus;
  trace : list Event
}.

Definition set_cameraData (f : gmap positive CameraData → gmap positive CameraData)
    (w : World) : World :=
  mkWorld (f (cameraData_ w)) (cameras_ w) (manager_cameras w) (camera_owners w)
          (disconnected w) (slots w) (requests w) (buffers w) (trace w).

Definition set_cameras (f : list positive → list positive) (w : World) : World :=
  mkWorld (cameraData_ w) (f (cameras_ w)) (manager_cameras w) (camera_owners w)
          (disconnected w) (slots w) (requests w) (buffers w) (trace w).

Definition set_manager_cameras (f : list positive → list positive) (w : World) : World :=
  mkWorld (cameraData_ w) (cameras_ w) (f (manager_cameras w)) (camera_owners w)
          (disconnected w) (slots w) (requests w) (buffers w) (trace w).

Definition set_disconnected (f : gset positive → gset positive) (w : World) : World :=
  mkWorld (cameraData_ w) (cameras_ w) (manager_cameras w) (camera_owners w)
          (f (disconnected w)) (slots w) (requests w) (buffers w) (trace w).

Definition set_slots (f : list positive → list positive) (w : World) : World :=
  mkWorld (cameraData_ w) (cameras_ w) (manager_cameras w) (camera_owners w)
          (disconnected w) (f (slots w)) (requests w) (buffers w) (trace w).

Definition set_requests (f : gmap positive Request → gmap positive Request)
    (w : World) : World :=
  mkWorld (cameraData_ w) (cameras_ w) (manager_cameras w) (camera_owners w)
          (disconnected w) (slots w) (f (requests w)) (buffers w) (trace w).

Definition set_buffers (f : gmap positive BufferStatus → gmap positive BufferStatus)
    (w : World) : World :=
  mkWorld (cameraData_ w) (cameras_ w) (manager_cameras w) (camera_owners w)
          (disconnected w) (slots w) (requests w) (f (buffers w)) (trace w).

Definition emit (e : Event) (w : World) : World :=
  mkWorld (cameraData_ w) (cameras_ w) (manager_cameras w) (camera_owners w)
          (disconnected w) (slots w) (requests w) (buffers w) (trace w ++ [e]).

(** ** Computations over the world *)

Definition M (A : Type) : Type := World → Outcome (A * World).

#[global] Instance M_ret : MRet M := λ A a w, Ok (a, w).

#[global] Instance M_bind : MBind M := λ A B k m w,
  match m w with
  | Ok (a, w') => k a w'
  | Fatal => Fatal
  | Undefined => Undefined
  | OutOfFuel => OutOfFuel
  end.

Definition ret {A} (a : A) : M A := mret a.

Definition get : M World := λ w, Ok (w, w).
Definition modify (f : World → World) : M unit := λ w, Ok (tt, f w).
Definition undefined {A} : M A := λ _, Undefined.

(** Modelled from the spec: the ASSERT macro of log.h is not part of the
    sources at hand; the specification treats a violated assertion as fatal,
    so a false condition ends the call with [Fatal]. *)
Definition ASSERT (cond : bool) : M unit :=
  λ w, if cond then Ok (tt, w) else Fatal.

(** [while (cond) body], unrolled at most [fuel] times. *)
Fixpoint while (fuel : nat) (cond : M bool) (body : M unit) : M unit :=
  match fuel with
  | O => λ _, OutOfFuel
  | S fuel' =>
      c ← cond;
      if c : bool then body ;; while fuel' cond body else ret tt
  end.

(** ** Collaborators *)

(** A weak reference to a camera resolves while some shared reference to it
    exists: the camera manager's or one held elsewhere. *)
Definition resolves (w : World) (camera : positive) : bool :=
  bool_decide (camera ∈ manager_cameras w) || bool_decide (camera ∈ camera_owners w).

(** [ptr.lock()]. *)
Definition weak_lock (ptr : positive) : M (option positive) :=
  w ← get; ret (if resolves w ptr then Some ptr else None).

(** Dereferencing a [Camera *]: undefined once the camera is destroyed. *)
Definition Camera_deref (camera : positive) : M unit :=
  w ← get; if resolves w camera then ret tt else undefined.

(** Dereferencing a [Request *]. *)
Definition Request_deref (request : positive) : M Request :=
  w ← get;
  match requests w !! request with
  | Some rq => ret rq
  | None => undefined
  end.

(** Removing a key from a set of pointers; the order of the others is kept. *)
Definition erase (x : positive) (l : list positive) : list positive :=
  filter (λ y, y ≠ x) l.

(** Modelled from the spec: Buffer::cancel() (buffer.cpp is not part of the
    sources at hand) ends the pending state of the buffer as cancelled. *)
Definition Buffer_cancel (buffer : positive) : M unit :=
  w ← get;
  match buffers w !! buffer with
  | Some _ => modify (set_buffers <[buffer := BufferCancelled]>)
  | None => undefined
  end.

(** Modelled from the spec: Request::completeBuffer() (request.cpp is not part
    of the sources at hand) takes the buffer out of the request's tracking of
    pending buffers and reports whether no buffer is pending any more. *)
Definition Request_completeBuffer (request buffer : positive) : M bool :=
  rq ← Request_deref request;
  let p := erase buffer (pending_ rq) in
  modify (set_requests <[request := mkRequest p (status_ rq)]>) ;;
  ret (bool_decide (p = [])).

(** Modelled from the spec: Request::complete() (request.cpp is not part of
    the sources at hand) marks the request with its terminal status. *)
Definition Request_complete (request : positive) (status : RequestStatus) : M unit :=
  rq ← Request_deref request;
  modify (set_requests <[request := mkRequest (pending_ rq) status]>).

(** Modelled from the spec: [camera->bufferCompleted.emit(request, buffer)]
    (camera.cpp is not part of the sources at hand) notifies the observers of
    buffer completion of the camera. *)
Definition Camera_bufferCompleted_emit (camera request buffer : positive) : M unit :=
  Camera_deref camera ;;
  w ← get;
  modify (emit (EvBufferCompleted camera request buffer (buffers w !! buffer))).

(** Modelled from the spec: Camera::requestComplete() (camera.cpp is not part
    of the sources at hand) signals the completion of the request to the
    camera, after which the request must not be accessed any more; the
    documentation of completeRequest() states that the request is deleted by
    then. *)
Definition Camera_requestComplete (camera request : positive) : M unit :=
  Camera_deref camera ;;
  rq ← Request_deref request;
  modify (emit (EvRequestComplete camera request (status_ rq))) ;;
  modify (set_requests (delete request)).

(** Modelled from the spec: Camera::disconnect() (camera.cpp is not part of
    the sources at hand) marks the camera disconnected. *)
Definition Camera_disconnect (camera : positive) : M unit :=
  Camera_deref camera ;;
  modify (set_disconnected (λ s, {[camera]} ∪ s)) ;;
  modify (emit (EvCameraDisconnect camera)).

(** Removing the first occurrence of a pointer from a list. *)
Fixpoint remove_first (x : positive) (l : list positive) : list positive :=
  match l with
  | [] => []
  | y :: l' => if decide (y = x) then l' else y :: remove_first x l'
  end.

(** Modelled from the spec: CameraManager::addCamera() (camera_manager.cpp is
    not part of the sources at hand) takes over the shared reference. *)
Definition CameraManager_addCamera (camera : positive) : M unit :=
  modify (set_manager_cameras (λ l, l ++ [camera])) ;;
  modify (emit (EvAddCamera camera)).

(** Modelled from the spec: CameraManager::removeCamera() (camera_manager.cpp
    is not part of the sources at hand) unregisters the camera, dropping the
    shared reference the manager took at registration. *)
Definition CameraManager_removeCamera (camera : positive) : M unit :=
  modify (set_manager_cameras (remove_first camera)) ;;
  modify (emit (EvRemoveCamera camera)).

(** Modelled from the spec: [media->disconnected.connect(this, ...)]
    (signal.h and media_device.h are not part of the sources at hand)
    subscribes the handler to the disconnection of the device. *)
Definition Signal_connect (media : positive) : M unit :=
  modify (set_slots (λ l, l ++ [media])) ;;
  modify (emit (EvSignalConnect media)).

(** Modelled from the spec: [media->disconnected.disconnect(this)] (signal.h
    and media_device.h are not part of the sources at hand) makes the handler
    stop monitoring the device: every connection of the handler to the signal
    is removed. *)
Definition Signal_disconnect (media : positive) : M unit :=
  modify (set_slots (erase media)) ;;
  modify (emit (EvSignalDisconnect media)).

(** [front()] of a std::list: undefined on an empty list. *)
Definition front (l : list positive) : M positive :=
  match l with
  | x :: _ => ret x
  | [] => undefined
  end.

(** ** PipelineHandler *)

(** PipelineHandler::cameraData. *)
Definition cameraData (camera : positive) : M CameraData :=
  w ← get;
  ASSERT (bool_decide (is_Some (cameraData_ w !! camera))) ;;
  match cameraData_ w !! camera with
  | Some data => ret data
  | None => undefined
  end.

(** Reading and writing [data->queuedRequests_] through the pointer returned
    by [cameraData]. *)
Definition queuedRequests (camera : positive) : M (list positive) :=
  w ← get;
  match cameraData_ w !! camera with
  | Some data => ret (queuedRequests_ data)
  | None => undefined
  end.

Definition set_queuedRequests (camera : positive) (q : list positive) : M unit :=
  w ← get;
  match cameraData_ w !! camera with
  | Some data => modify (set_cameraData <[camera := mkCameraData (camera_ data) q]>)
  | None => undefined
  end.

(** [data->queuedRequests_.pop_front()]. *)
Definition pop_front (camera : positive) : M unit :=
  q ← queuedRequests camera;
  match q with
  | _ :: q' => set_queuedRequests camera q'
  | [] => undefined
  end.

(** [request->pending_]. *)
Definition pending (request : positive) : M (list positive) :=
  rq ← Request_deref request; ret (pending_ rq).

(** PipelineHandler::completeBuffer. *)
Definition completeBuffer (camera request buffer : positive) : M bool :=
  Camera_bufferCompleted_emit camera request buffer ;;
  Request_completeBuffer request buffer.

(** The body of the inner loop of [stop]. *)
Definition stop_cancel_buffer (camera request : positive) : M unit :=
  p ← pending request;
  buffer ← front p;
  Buffer_cancel buffer ;;
  _ ← completeBuffer camera request buffer;
  ret tt.

(** The body of the outer loop of [stop]. *)
Definition stop_cancel_request (fuel : nat) (camera : positive) : M unit :=
  q ← queuedRequests camera;
  request ← front q;
  pop_front camera ;;
  while fuel (p ← pending request; ret (negb (bool_decide (p = []))))
             (stop_cancel_buffer camera request) ;;
  Request_complete request RequestCancelled ;;
  Camera_requestComplete camera request.

(** PipelineHandler::stop. *)
Definition stop (fuel : nat) (camera : positive) : M unit :=
  _ ← cameraData camera;
  while fuel (q ← queuedRequests camera; ret (negb (bool_decide (q = []))))
             (stop_cancel_request fuel camera).

(** PipelineHandler::queueRequest. *)
Definition queueRequest (camera request : positive) : M Z :=
  data ← cameraData camera;
  set_queuedRequests camera (queuedRequests_ data ++ [request]) ;;
  ret 0%Z.

(** PipelineHandler::completeRequest. *)
Definition completeRequest (camera request : positive) : M unit :=
  data ← cameraData camera;
  f ← front (queuedRequests_ data);
  ASSERT (bool_decide (request = f)) ;;
  pop_front camera ;;
  Request_complete request RequestComplete ;;
  Camera_requestComplete camera request.

(** PipelineHandler::registerCamera. *)
Definition registerCamera (camera : positive) (data : CameraData) : M unit :=
  let data := mkCameraData (Some camera) (queuedRequests_ data) in
  modify (set_cameraData <[camera := data]>) ;;
  modify (set_cameras (λ l, l ++ [camera])) ;;
  CameraManager_addCamera camera.

(** PipelineHandler::hotplugMediaDevice. *)
Definition hotplugMediaDevice (media : positive) : M unit :=
  Signal_connect media.

(** The loop of PipelineHandler::disconnect over the weak references. *)
Fixpoint disconnect_each (ptrs : list positive) : M unit :=
  match ptrs with
  | [] => ret tt
  | ptr :: rest =>
      camera ← weak_lock ptr;
      match camera with
      | None => disconnect_each rest
      | Some camera =>
          Camera_disconnect camera ;;
          CameraManager_removeCamera camera ;;
          disconnect_each rest
      end
  end.

(** PipelineHandler::disconnect. *)
Definition disconnect : M unit :=
  w ← get;
  disconnect_each (cameras_ w) ;;
  modify (set_cameras (λ _, [])).

(** PipelineHandler::mediaDeviceDisconnected. *)
Definition mediaDeviceDisconnected (media : positive) : M unit :=
  Signal_disconnect media ;;
  w ← get;
  if bool_decide (cameras_ w = []) then ret tt else disconnect.

(** ** Sequences of calls *)

(** The calls that drive the queue of one camera. *)
Inductive Call :=
| QueueRequest (request : positive)
| CompleteRequest (request : positive).

Definition call (camera : positive) (c : Call) : M unit :=
  match c with
  | QueueRequest request => _ ← queueRequest camera request; ret tt
  | CompleteRequest request => completeRequest camera request
  end.

Fixpoint run_calls (camera : positive) (cs : list Call) : M unit :=
  match cs with
  | [] => ret tt
  | c :: cs' => call camera c ;; run_calls camera cs'
  end.

(** The requests queued, and the requests completed, by a sequence of calls,
    in call order. *)
Definition queued (cs : list Call) : list positive :=
  omap (λ c, match c with QueueRequest r => Some r | _ => None end) cs.

Definition completed (cs : list Call) : list positive :=
  omap (λ c, match c with CompleteRequest r => Some r | _ => None end) cs.

(** Every [CompleteRequest] of the sequence names the request that is at the
    front of the queue when the call is made, starting from the queue [q]. *)
Fixpoint respects_fifo (q : list positive) (cs : list Call) : bool :=
  match cs with
  | [] => true
  | QueueRequest r :: cs' => respects_fifo (q ++ [r]) cs'
  | CompleteRequest r :: cs' =>
      match q with
      | f :: q' => bool_decide (r = f) && respects_fifo q' cs'
      | [] => false
      end
  end.

(** Registering a list of cameras, each with its data, in order. *)
Fixpoint registerCameras (regs : list (positive * CameraData)) : M unit :=
  match regs with
  | [] => ret tt
  | (camera, data) :: regs' => registerCamera camera data ;; registerCameras regs'
  end.

(** The data most recently registered for a camera. *)
Definition registered (regs : list (positive * CameraData)) (camera : positive)
    : option CameraData :=
  snd <$> last (filter (λ p, p.1 = camera) regs).

(** The queue of a camera, empty when the camera has no data. *)
Definition queue_of (w : World) (camera : positive) : list positive :=
  default [] (queuedRequests_ <$> cameraData_ w !! camera).

(** Notifications of the trace. *)
Definition is_request_notification (e : Event) : bool :=
  match e with EvRequestComplete _ _ _ => true | _ => false end.

Definition is_buffer_notification (e : Event) : bool :=
  match e with EvBufferCompleted _ _ _ _ => true | _ => false end.

(** The notifications [stop] fires for one request with pending buffers [p],
    and for a queue of requests whose pending buffers are given by [reqs]. *)
Definition cancel_notifications (camera request : positive) (p : list positive)
    : list Event :=
  map (λ b, EvBufferCompleted camera request b (Some BufferCancelled)) p
  ++ [EvRequestComplete camera request RequestCancelled].

Definition pending_of (reqs : gmap positive Request) (request : positive)
    : list positive :=
  default [] (pending_ <$> reqs !! request).

Definition stop_notifications (camera : positive) (reqs : gmap positive Request)
    (q : list positive) : list Event :=
  q ≫= (λ r, cancel_notifications camera r (pending_of reqs r)).

(** ** Worlds and traces the operations lead to *)

(** The calls made for the cameras [cs] that [disconnect] reaches. *)
Definition disconnect_calls (cs : list positive) : list Event :=
  cs ≫= (λ c, [EvCameraDisconnect c; EvRemoveCamera c]).

(** One pass of the loop body for a camera that is still alive. *)
Definition after_disconnect (camera : positive) (w : World) : World :=
  emit (EvRemoveCamera camera)
    (set_manager_cameras (remove_first camera)
       (emit (EvCameraDisconnect camera)
          (set_disconnected (λ s, {[camera]} ∪ s) w))).

(** The buffers [p] cancelled one after the other. *)
Definition cancel_buffers (p : list positive) (bufs : gmap positive BufferStatus)
    : gmap positive BufferStatus :=
  foldl (λ m b, <[b := BufferCancelled]> m) bufs p.

(** The world once the inner loop of [stop] has gone through the pending
    buffers [p] of [request]. *)
Definition after_cancel_pending (camera request : positive) (st : RequestStatus)
    (p : list positive) (w : World) : World :=
  mkWorld (cameraData_ w) (cameras_ w) (manager_cameras w) (camera_owners w)
          (disconnected w) (slots w)
          (<[request := mkRequest [] st]> (requests w))
          (cancel_buffers p (buffers w))
          (trace w ++
           map (λ b, EvBufferCompleted camera request b (Some BufferCancelled)) p).

(** The world once [stop] has gone through the queue [q] of [camera]. *)
Definition cancel_requests (q : list positive) (reqs : gmap positive Request)
    : gmap positive Request :=
  foldl (λ m r, delete r m) reqs q.

Definition after_stop (camera : positive) (data : CameraData) (q : list positive)
    (w : World) : World :=
  mkWorld (<[camera := mkCameraData (camera_ data) []]> (cameraData_ w))
          (cameras_ w) (manager_cameras w) (camera_owners w)
          (disconnected w) (slots w)
          (cancel_requests q (requests w))
          (cancel_buffers (q ≫= pending_of (requests w)) (buffers w))
          (trace w ++ stop_notifications camera (requests w) q).

(** ** PipelineHandlerFactory *)

Module PipelineHandlerFactory.

(** The factory objects ([name_] of each, by address), the static vector
    of [factories()] and the lines logged so far. *)
Record Registry := mkRegistry {
  names : gmap positive string;
  factories : list positive;
  log : list string
}.

Definition dquote : string := String (Ascii.ascii_of_nat 34) EmptyString.

(** PipelineHandlerFactory::registerType. [factory->name()] dereferences
    the factory. *)
Definition registerType (factory : positive) (s : Registry) : Outcome Registry :=
  let fs := factories s ++ [factory] in
  match names s !! factory with
  | Some name =>
      Ok (mkRegistry (names s) fs
            (log s ++ ["Registered pipeline handler " +:+ dquote +:+ name +:+ dquote]))
  | None => Undefined
  end.

(** The constructor: the new object gets an address no live factory has,
    stores its name and registers itself. *)
Definition construct (name : string) (s : Registry) : Outcome Registry :=
  let this := fresh (dom (names s)) in
  registerType this (mkRegistry (<[this := name]> (names s)) (factories s) (log s)).

(** Registering a list of factories in order. *)
Fixpoint registerTypes (fs : list positive) (s : Registry) : Outcome Registry :=
  match fs with
  | [] => Ok s
  | f :: fs' =>
      match registerType f s with
      | Ok s' => registerTypes fs' s'
      | o => o
      end
  end.

End PipelineHandlerFactory.

(** ** Matching media devices *)

Module Match.

(** Modelled from the spec: PipelineHandler::match() is pure virtual and no
    implementation is part of the sources at hand. A media device is Free or
    Acquired; [acquired] is the set of the acquired ones. *)
Definition acquire (h : positive) (acquired : gset positive)
    : bool * gset positive :=
  if decide (h ∈ acquired) then (false, acquired) else (true, {[h]} ∪ acquired).

(** Modelled from the spec: releasing a device makes it Free again. *)
Definition release (h : positive) (acquired : gset positive) : gset positive :=
  acquired ∖ {[h]}.

Definition release_all (held : list positive) (acquired : gset positive)
    : gset positive :=
  foldr release acquired held.

(** Modelled from the spec: the required devices are acquired one after the
    other; when one cannot be acquired, those acquired during the attempt
    ([held]) are released and the attempt reports no match. *)
Fixpoint acquire_all (required held : list positive) (acquired : gset positive)
    : bool * gset positive :=
  match required with
  | [] => (true, acquired)
  | h :: rest =>
      match acquire h acquired with
      | (true, acquired') => acquire_all rest (h :: held) acquired'
      | (false, acquired') => (false, release_all held acquired')
      end
  end.

(** Modelled from the spec: a match attempt first confirms that the
    enumerator exposes every required device, and only then acquires. *)
Definition match_devices (available : gset positive) (required : list positive)
    (acquired : gset positive) : bool * gset positive :=
  if forallb (λ h, bool_decide (h ∈ available)) required
  then acquire_all required [] acquired
  else (false, acquired).

End Match.

(** ** A worked example *)

(** Camera 1 is registered and alive with requests 10 and 11 queued; request
    12 has been created but not queued; camera 2 has been destroyed by its
    owners but is still referenced by the handler; the handler watches media
    device 7. *)
Definition example_data : CameraData :=
  mkCameraData (Some 1%positive) [10%positive; 11%positive].

Definition example_world : World :=
  mkWorld {[ 1%positive := example_data ]}
          [1%positive; 2%positive] [1%positive] ∅ ∅ [7%positive]
          (<[10%positive := mkRequest [100%positive; 101%positive] RequestPending]>
             (<[11%positive := mkRequest [102%positive] RequestPending]>
                {[ 12%positive := mkRequest [] RequestPending ]}))
          (<[100%positive := BufferPending]>
             (<[101%positive := BufferPending]> {[ 102%positive := BufferPending ]}))
          [].


(** A handler that has not registered anything yet. *)
Definition fresh_world : World := mkWorld ∅ [] [] ∅ ∅ [] ∅ ∅ [].

(** Two factory objects that carry the same name. *)
Definition example_registry : PipelineHandlerFactory.Registry :=
  PipelineHandlerFactory.mkRegistry
    (<[1%positive := "uvcvideo"%string]> {[ 2%positive := "uvcvideo"%string ]}) [] [].

(** ** Further sequences of calls *)

(** One [completeBuffer] call per buffer of [bs], in order, for one request;
    the values the calls return. *)
Fixpoint completeBuffers (camera request : positive) (bs : list positive)
    : M (list bool) :=
  match bs with
  | [] => ret []
  | b :: bs' =>
      last ← completeBuffer camera request b;
      rest ← completeBuffers camera request bs';
      ret (last :: rest)
  end.

(** Factories constructed one after the other, with the names [ns]. *)
Fixpoint constructs (ns : list string) (s : PipelineHandlerFactory.Registry)
    : Outcome PipelineHandlerFactory.Registry :=
  match ns with
  | [] => Ok s
  | name :: ns' =>
      match PipelineHandlerFactory.construct name s with
      | Ok s' => constructs ns' s'
      | o => o
      end
  end.

(** No event of the list notifies the completion of a buffer or a request. *)
Definition no_notification (evs : list Event) : Prop :=
  Forall (λ e, is_request_notification e = false ∧ is_buffer_notification e = false)
         evs.

(** [w'] differs from [w] at most in the data of [camera], in the requests
    that are gone and in the trace. *)
Definition same_outside (camera : positive) (w w' : World) : Prop :=
  (∀ c, c ≠ camera → cameraData_ w' !! c = cameraData_ w !! c) ∧
  (∀ r rq, requests w' !! r = Some rq → requests w !! r = Some rq) ∧
  buffers w' = buffers w ∧
  cameras_ w' = cameras_ w ∧
  manager_cameras w' = manager_cameras w ∧
  camera_owners w' = camera_owners w ∧
  disconnected w' = disconnected w ∧
  slots w' = slots w.

(** * Properties *)

(** ** Stepping through a computation *)

Ltac mstep :=
  unfold mbind, M_bind, mret, M_ret, ret, get, modify, undefined, ASSERT; simpl.

Lemma bind_Ok {A B} (m : M A) (k : A → M B) w a w' :
  m w = Ok (a, w') → (m ≫= k) w = k a w'.
Proof. intros H. unfold mbind, M_bind. by rewrite H. Qed.

Lemma bind_Fatal {A B} (m : M A) (k : A → M B) w :
  m w = Fatal → (m ≫= k) w = Fatal.
Proof. intros H. unfold mbind, M_bind. by rewrite H. Qed.

Lemma cameraData_Some w camera data :
  cameraData_ w !! camera = Some data → cameraData camera w = Ok (data, w).
Proof.
  intros H. unfold cameraData. mstep. rewrite H.
  rewrite bool_decide_eq_true_2; [done | eauto].
Qed.

Lemma cameraData_None w camera :
  cameraData_ w !! camera = None → cameraData camera w = Fatal.
Proof.
  intros H. unfold cameraData. mstep. rewrite H.
  rewrite bool_decide_eq_false_2; [done | by intros [? ?]].
Qed.

Lemma Camera_deref_ok w camera :
  resolves w camera = true → Camera_deref camera w = Ok (tt, w).
Proof. intros H. unfold Camera_deref. mstep. by rewrite H. Qed.

Lemma Request_deref_ok w request rq :
  requests w !! request = Some rq → Request_deref request w = Ok (rq, w).
Proof. intros H. unfold Request_deref. mstep. by rewrite H. Qed.

Lemma queuedRequests_ok w camera data :
  cameraData_ w !! camera = Some data →
  queuedRequests camera w = Ok (queuedRequests_ data, w).
Proof. intros H. unfold queuedRequests. mstep. by rewrite H. Qed.

Lemma set_queuedRequests_ok w camera data q :
  cameraData_ w !! camera = Some data →
  set_queuedRequests camera q w =
    Ok (tt, set_cameraData <[camera := mkCameraData (camera_ data) q]> w).
Proof. intros H. unfold set_queuedRequests. mstep. by rewrite H. Qed.

Lemma pop_front_ok w camera data f q :
  cameraData_ w !! camera = Some data →
  queuedRequests_ data = f :: q →
  pop_front camera w =
    Ok (tt, set_cameraData <[camera := mkCameraData (camera_ data) q]> w).
Proof.
  intros H Hq. unfold pop_front.
  rewrite (bind_Ok _ _ _ _ _ (queuedRequests_ok _ _ _ H)), Hq.
  by apply set_queuedRequests_ok.
Qed.

Lemma Request_complete_ok w request rq status :
  requests w !! request = Some rq →
  Request_complete request status w =
    Ok (tt, set_requests <[request := mkRequest (pending_ rq) status]> w).
Proof.
  intros H. unfold Request_complete.
  by rewrite (bind_Ok _ _ _ _ _ (Request_deref_ok _ _ _ H)).
Qed.

Lemma Camera_requestComplete_ok w camera request rq :
  resolves w camera = true →
  requests w !! request = Some rq →
  Camera_requestComplete camera request w =
    Ok (tt, set_requests (delete request)
              (emit (EvRequestComplete camera request (status_ rq)) w)).
Proof.
  intros Hc H. unfold Camera_requestComplete.
  rewrite (bind_Ok _ _ _ _ _ (Camera_deref_ok _ _ Hc)).
  by rewrite (bind_Ok _ _ _ _ _ (Request_deref_ok _ _ _ H)).
Qed.

Lemma queueRequest_ok w camera request data :
  cameraData_ w !! camera = Some data →
  queueRequest camera request w =
    Ok (0%Z, set_cameraData
               <[camera := mkCameraData (camera_ data)
                             (queuedRequests_ data ++ [request])]> w).
Proof.
  intros H. unfold queueRequest.
  rewrite (bind_Ok _ _ _ _ _ (cameraData_Some _ _ _ H)).
  by rewrite (bind_Ok _ _ _ _ _ (set_queuedRequests_ok _ _ _ _ H)).
Qed.

Lemma completeRequest_ok w camera request data rest rq :
  cameraData_ w !! camera = Some data →
  queuedRequests_ data = request :: rest →
  requests w !! request = Some rq →
  resolves w camera = true →
  completeRequest camera request w =
    Ok (tt, set_requests (delete request)
              (emit (EvRequestComplete camera request RequestComplete)
                 (set_cameraData <[camera := mkCameraData (camera_ data) rest]> w))).
Proof.
  intros H Hq Hr Hc. unfold completeRequest.
  rewrite (bind_Ok _ _ _ _ _ (cameraData_Some _ _ _ H)), Hq.
  unfold front at 1. mstep. rewrite bool_decide_eq_true_2 by done.
  fold (@mbind M _).
  erewrite pop_front_ok by eauto.
  erewrite Request_complete_ok by (simpl; eauto).
  rewrite (Camera_requestComplete_ok _ _ _ (mkRequest (pending_ rq) RequestComplete));
    [|done|simpl; by rewrite lookup_insert_eq].
  f_equal. f_equal. unfold set_requests, emit. simpl. by rewrite delete_insert_eq.
Qed.

(** ** Lookup of camera data *)

Lemma registered_cons camera' data' regs camera :
  registered ((camera', data') :: regs) camera =
    match registered regs camera with
    | Some data => Some data
    | None => if decide (camera' = camera) then Some data' else None
    end.
Proof.
  unfold registered. rewrite filter_cons. simpl.
  destruct (decide (camera' = camera)) as [->|Hne].
  - rewrite last_cons.
    by destruct (last (filter _ regs)).
  - by destruct (last (filter _ regs)).
Qed.

Lemma registerCamera_ok w camera data :
  registerCamera camera data w =
    Ok (tt, emit (EvAddCamera camera)
              (set_manager_cameras (λ l, l ++ [camera])
                 (set_cameras (λ l, l ++ [camera])
                    (set_cameraData
                       <[camera := mkCameraData (Some camera) (queuedRequests_ data)]>
                       w)))).
Proof. done. Qed.

Lemma registerCameras_lookup regs : ∀ w camera,
  ∃ w', registerCameras regs w = Ok (tt, w') ∧
        cameraData_ w' !! camera =
          match registered regs camera with
          | Some data => Some (mkCameraData (Some camera) (queuedRequests_ data))
          | None => cameraData_ w !! camera
          end.
Proof.
  induction regs as [|[c d] regs IH]; intros w camera.
  - exists w. by split.
  - simpl. rewrite (bind_Ok _ _ _ _ _ (registerCamera_ok w c d)).
    destruct (IH (emit (EvAddCamera c)
                    (set_manager_cameras (λ l, l ++ [c])
                       (set_cameras (λ l, l ++ [c])
                          (set_cameraData
                             <[c := mkCameraData (Some c) (queuedRequests_ d)]> w))))
                 camera) as (w' & Hrun & Hlook).
    exists w'. split; [done|].
    rewrite Hlook, registered_cons.
    destruct (registered regs camera); [done|]. simpl.
    destruct (decide (c = camera)) as [->|Hne].
    + by rewrite lookup_insert_eq.
    + by rewrite lookup_insert_ne.
Qed.

(** C8. On a handler that starts with no camera data, after any sequence of
    [registerCamera] calls, [cameraData] returns for a registered camera the
    CameraData passed at its (latest) registration, with its [camera_] set to
    that camera, and is a fatal assertion failure for a camera that was never
    registered. *)
Theorem cameraData_after_registerCameras w regs camera :
  cameraData_ w = ∅ →
  ∃ w', registerCameras regs w = Ok (tt, w') ∧
        cameraData camera w' =
          match registered regs camera with
          | Some data => Ok (mkCameraData (Some camera) (queuedRequests_ data), w')
          | None => Fatal
          end.
Proof.
  intros Hfresh.
  destruct (registerCameras_lookup regs w camera) as (w' & Hrun & Hlook).
  exists w'. split; [done|].
  destruct (registered regs camera) as [data|].
  - by apply cameraData_Some.
  - apply cameraData_None. by rewrite Hlook, Hfresh, lookup_empty.
Qed.

(** ** Queueing and completing requests *)

(** C10. For a registered camera the base [queueRequest] returns 0 whatever
    the request and however long the queue is; the request is appended and
    nothing else of the world changes. *)
Theorem queueRequest_returns_0 w camera request data :
  cameraData_ w !! camera = Some data →
  ∃ w', queueRequest camera request w = Ok (0%Z, w') ∧
        queue_of w' camera = queuedRequests_ data ++ [request] ∧
        w' = set_cameraData
               <[camera := mkCameraData (camera_ data)
                             (queuedRequests_ data ++ [request])]> w.
Proof.
  intros H. eexists. split; [by apply queueRequest_ok|]. split; [|done].
  unfold queue_of. simpl. by rewrite lookup_insert_eq.
Qed.

Lemma completeRequest_unregistered w camera request :
  cameraData_ w !! camera = None → completeRequest camera request w = Fatal.
Proof.
  intros H. unfold completeRequest. apply bind_Fatal. by apply cameraData_None.
Qed.

(** [front()] of an empty list has no defined behaviour: what a call on a
    camera with an empty queue does is left open. *)
Lemma completeRequest_empty_queue w camera request data :
  cameraData_ w !! camera = Some data →
  queuedRequests_ data = [] →
  completeRequest camera request w = Undefined.
Proof.
  intros H Hq. unfold completeRequest.
  rewrite (bind_Ok _ _ _ _ _ (cameraData_Some _ _ _ H)), Hq. done.
Qed.

(** When the camera is not registered, or the request at the front of its
    queue is another one, [completeRequest] is a fatal assertion failure:
    nothing is popped, no request is marked and nothing is signalled. *)
Theorem completeRequest_not_front w camera request :
  (∀ data, cameraData_ w !! camera = Some data →
           ∃ f rest, queuedRequests_ data = f :: rest ∧ request ≠ f) →
  completeRequest camera request w = Fatal.
Proof.
  intros Hfront. destruct (cameraData_ w !! camera) as [data|] eqn:H.
  - destruct (Hfront data eq_refl) as (f & rest & Hq & Hne).
    unfold completeRequest.
    rewrite (bind_Ok _ _ _ _ _ (cameraData_Some _ _ _ H)), Hq.
    unfold front. mstep. by rewrite bool_decide_eq_false_2.
  - by apply completeRequest_unregistered.
Qed.


(** C3. Completing the request at the front of the queue pops exactly that
    request, marks it RequestComplete and signals it to the camera once, in
    that state; the rest of the queue, the other cameras, the other requests
    and the buffers are as before. The request itself is gone once it has
    been signalled. *)
Theorem completeRequest_front w camera request data rest rq :
  cameraData_ w !! camera = Some data →
  queuedRequests_ data = request :: rest →
  requests w !! request = Some rq →
  resolves w camera = true →
  ∃ w', completeRequest camera request w = Ok (tt, w') ∧
        queue_of w' camera = rest ∧
        trace w' = trace w ++ [EvRequestComplete camera request RequestComplete] ∧
        requests w' = delete request (requests w) ∧
        (∀ c, c ≠ camera → cameraData_ w' !! c = cameraData_ w !! c) ∧
        (∀ r, r ≠ request → requests w' !! r = requests w !! r) ∧
        buffers w' = buffers w.
Proof.
  intros H Hq Hr Hc. eexists. split; [by eapply completeRequest_ok|].
  simpl. unfold queue_of. simpl. rewrite !lookup_insert_eq.
  repeat split; try done.
  - intros c Hne. by rewrite lookup_insert_ne.
  - intros r Hne. by rewrite lookup_delete_ne.
Qed.

(** ** Completing buffers *)

Lemma elem_of_erase x y l : y ∈ erase x l ↔ y ≠ x ∧ y ∈ l.
Proof. unfold erase. by rewrite list_elem_of_filter. Qed.

Lemma erase_nil_iff x l : erase x l = [] ↔ ∀ y, y ∈ l → y = x.
Proof.
  split.
  - intros E y Hy. destruct (decide (y = x)) as [|Hne]; [done|].
    assert (y ∈ erase x l) as Hin by by apply elem_of_erase.
    rewrite E in Hin. by apply not_elem_of_nil in Hin.
  - intros Hall. destruct (erase x l) as [|y l'] eqn:E; [done|].
    assert (y ∈ erase x l) as Hin by (rewrite E; left).
    apply elem_of_erase in Hin as [Hne Hin]. by apply Hall in Hin.
Qed.

Lemma completeBuffer_ok w camera request buffer rq :
  resolves w camera = true →
  requests w !! request = Some rq →
  completeBuffer camera request buffer w =
    Ok (bool_decide (erase buffer (pending_ rq) = []),
        set_requests
          <[request := mkRequest (erase buffer (pending_ rq)) (status_ rq)]>
          (emit (EvBufferCompleted camera request buffer (buffers w !! buffer)) w)).
Proof.
  intros Hc Hr.
  unfold completeBuffer, Camera_bufferCompleted_emit, Request_completeBuffer,
    Camera_deref, Request_deref.
  mstep. rewrite Hc. simpl. by rewrite Hr.
Qed.

(** C4. One call to [completeBuffer] for a buffer pending in the request
    fires one buffer-completion notification for that buffer, takes the buffer
    out of the pending buffers of the request (the others stay), and returns
    true exactly when no other buffer was pending; the queues and the status
    of the request are untouched and no request completion is signalled. *)
Theorem completeBuffer_spec w camera request buffer rq :
  resolves w camera = true →
  requests w !! request = Some rq →
  buffer ∈ pending_ rq →
  ∃ last w' rq',
    completeBuffer camera request buffer w = Ok (last, w') ∧
    trace w' = trace w ++
               [EvBufferCompleted camera request buffer (buffers w !! buffer)] ∧
    requests w' = <[request := rq']> (requests w) ∧
    (buffer ∉ pending_ rq') ∧
    (∀ b, b ≠ buffer → (b ∈ pending_ rq' ↔ b ∈ pending_ rq)) ∧
    (last = true ↔ ∀ b, b ∈ pending_ rq → b = buffer) ∧
    status_ rq' = status_ rq ∧
    cameraData_ w' = cameraData_ w.
Proof.
  intros Hc Hr Hin.
  exists (bool_decide (erase buffer (pending_ rq) = [])). eexists.
  exists (mkRequest (erase buffer (pending_ rq)) (status_ rq)).
  split; [by apply completeBuffer_ok|]. simpl.
  repeat split; try done.
  - rewrite elem_of_erase. by intros [? _].
  - rewrite elem_of_erase. by intros [_ ?].
  - rewrite elem_of_erase. by intros ?.
  - intros Hb. apply bool_decide_eq_true_1 in Hb. by apply erase_nil_iff.
  - intros Hall. apply bool_decide_eq_true_2. by apply erase_nil_iff.
Qed.

(** ** Sequences of queueRequest and completeRequest *)

Lemma run_calls_app camera cs1 cs2 w :
  run_calls camera (cs1 ++ cs2) w =
    (run_calls camera cs1 ;; run_calls camera cs2) w.
Proof.
  revert w. induction cs1 as [|c cs1 IH]; intros w; [done|].
  simpl. unfold mbind, M_bind in *.
  destruct (call camera c w) as [[[] w1]| | |]; [|done..].
  apply IH.
Qed.

Lemma completed_app cs1 cs2 : completed (cs1 ++ cs2) = completed cs1 ++ completed cs2.
Proof. unfold completed. apply omap_app. Qed.

Lemma queued_app cs1 cs2 : queued (cs1 ++ cs2) = queued cs1 ++ queued cs2.
Proof. unfold queued. apply omap_app. Qed.

Lemma respects_fifo_app cs1 : ∀ q cs2,
  respects_fifo q (cs1 ++ cs2) = true →
  respects_fifo q cs1 = true ∧
  ∀ q1, completed cs1 ++ q1 = q ++ queued cs1 → respects_fifo q1 cs2 = true.
Proof.
  induction cs1 as [|[r|r] cs1 IH]; intros q cs2 H; simpl in *.
  - split; [done|]. intros q1 E. rewrite app_nil_r in E. by subst.
  - destruct (IH _ _ H) as [H1 H2]. split; [done|].
    intros q1 E. apply H2. rewrite E.
    change (queued (QueueRequest r :: cs1)) with (r :: queued cs1).
    by rewrite <- app_assoc.
  - destruct q as [|f q']; [done|].
    apply andb_true_iff in H as [Hr H]. apply bool_decide_eq_true_1 in Hr. subst f.
    destruct (IH _ _ H) as [H1 H2]. split.
    + by rewrite bool_decide_eq_true_2.
    + intros q1 E. apply H2.
      change (completed (CompleteRequest r :: cs1)) with (r :: completed cs1) in E.
      change (queued (CompleteRequest r :: cs1)) with (queued cs1) in E.
      simpl in E. by injection E.
Qed.

Lemma call_ok w camera data c :
  cameraData_ w !! camera = Some data →
  resolves w camera = true →
  (∀ r, r ∈ completed [c] → is_Some (requests w !! r)) →
  respects_fifo (queuedRequests_ data) [c] = true →
  ∃ w' data',
    call camera c w = Ok (tt, w') ∧
    cameraData_ w' !! camera = Some data' ∧
    match c with
    | QueueRequest r => queuedRequests_ data' = queuedRequests_ data ++ [r]
    | CompleteRequest r => queuedRequests_ data = r :: queuedRequests_ data'
    end ∧
    resolves w' camera = true ∧
    (∀ r, r ∉ completed [c] → requests w' !! r = requests w !! r) ∧
    trace w' = trace w ++
      map (λ r, EvRequestComplete camera r RequestComplete) (completed [c]).
Proof.
  intros H Hc Hlive Hfifo. destruct c as [r|r]; simpl in *.
  - eexists. eexists. split.
    + by rewrite (bind_Ok _ _ _ _ _ (queueRequest_ok _ _ _ _ H)).
    + simpl. rewrite lookup_insert_eq. repeat split; try done.
      by rewrite app_nil_r.
  - destruct (queuedRequests_ data) as [|f q'] eqn:Hq; [done|].
    apply andb_true_iff in Hfifo as [Hr _]. apply bool_decide_eq_true_1 in Hr.
    subst f. destruct (Hlive r) as [rq Hrq]; [left|].
    eexists. eexists. split; [by eapply completeRequest_ok|].
    simpl. rewrite lookup_insert_eq. repeat split; try done.
    intros r' Hr'. rewrite lookup_delete_ne; [done|].
    intros ->. apply Hr'. left.
Qed.

Lemma run_calls_inv cs : ∀ w camera data,
  cameraData_ w !! camera = Some data →
  resolves w camera = true →
  NoDup (completed cs) →
  (∀ r, r ∈ completed cs → is_Some (requests w !! r)) →
  respects_fifo (queuedRequests_ data) cs = true →
  ∃ w' data',
    run_calls camera cs w = Ok (tt, w') ∧
    cameraData_ w' !! camera = Some data' ∧
    completed cs ++ queuedRequests_ data' = queuedRequests_ data ++ queued cs ∧
    resolves w' camera = true ∧
    (∀ r, r ∉ completed cs → requests w' !! r = requests w !! r) ∧
    trace w' = trace w ++
      map (λ r, EvRequestComplete camera r RequestComplete) (completed cs).
Proof.
  induction cs as [|c cs IH]; intros w camera data H Hc Hnd Hlive Hfifo.
  - exists w, data. simpl. by rewrite !app_nil_r.
  - change (c :: cs) with ([c] ++ cs) in Hfifo, Hlive, Hnd.
    destruct (respects_fifo_app _ _ _ Hfifo) as [Hf1 Hf2].
    rewrite completed_app in Hlive, Hnd.
    apply NoDup_app in Hnd as (_ & Hdisj & Hnd).
    destruct (call_ok w camera data c H Hc) as (w1 & data1 & Hcall & H1 & Hq1 & Hc1 & Hl1 & Ht1);
      [intros r Hr; apply Hlive, elem_of_app; by left | done |].
    destruct (IH w1 camera data1 H1 Hc1 Hnd) as (w' & data' & Hrun & H' & Hq' & Hc' & Hl' & Ht').
    { intros r Hr. rewrite Hl1; [apply Hlive, elem_of_app; by right|].
      intros Hr1. by apply (Hdisj r). }
    { apply Hf2. destruct c as [r|r]; simpl; rewrite ?app_nil_r; by rewrite Hq1. }
    exists w', data'.
    split; [simpl; by rewrite (bind_Ok _ _ _ _ _ Hcall)|].
    repeat split; try done.
    + destruct c as [r|r].
      * change (completed (QueueRequest r :: cs)) with (completed cs).
        change (queued (QueueRequest r :: cs)) with (r :: queued cs).
        rewrite Hq', Hq1. by rewrite <- app_assoc.
      * change (completed (CompleteRequest r :: cs)) with (r :: completed cs).
        change (queued (CompleteRequest r :: cs)) with (queued cs).
        simpl. by rewrite Hq', Hq1.
    + intros r Hr. change (c :: cs) with ([c] ++ cs) in Hr.
      rewrite completed_app in Hr. apply not_elem_of_app in Hr as [Hr1 Hr2].
      by rewrite Hl', Hl1.
    + rewrite Ht', Ht1. change (c :: cs) with ([c] ++ cs).
      by rewrite completed_app, map_app, app_assoc.
Qed.

Lemma queue_of_Some w camera data :
  cameraData_ w !! camera = Some data → queue_of w camera = queuedRequests_ data.
Proof. intros H. unfold queue_of. by rewrite H. Qed.

(** C5. In a sequence of [queueRequest] and [completeRequest] calls on one
    camera in which every [completeRequest] names the request then at the
    front, every call returns; each [queueRequest] puts its request at the
    back and makes the queue one longer, each [completeRequest] takes the
    front request off and makes it one shorter; and at the end the queue is
    empty exactly when the completed requests are all the requests that were
    queued. The requests completed are distinct live objects: a request is
    gone once its completion has been signalled. *)
Theorem run_calls_queue w camera data cs :
  cameraData_ w !! camera = Some data →
  resolves w camera = true →
  NoDup (completed cs) →
  (∀ r, r ∈ completed cs → is_Some (requests w !! r)) →
  respects_fifo (queuedRequests_ data) cs = true →
  ∃ w',
    run_calls camera cs w = Ok (tt, w') ∧
    completed cs ++ queue_of w' camera = queuedRequests_ data ++ queued cs ∧
    length (queue_of w' camera) + length (completed cs) =
      length (queuedRequests_ data) + length (queued cs) ∧
    (queue_of w' camera = [] ↔ completed cs = queuedRequests_ data ++ queued cs) ∧
    (∀ cs1 c cs2, cs = cs1 ++ c :: cs2 →
       ∃ w1 w2,
         run_calls camera cs1 w = Ok (tt, w1) ∧
         call camera c w1 = Ok (tt, w2) ∧
         match c with
         | QueueRequest r =>
             queue_of w2 camera = queue_of w1 camera ++ [r] ∧
             length (queue_of w2 camera) = S (length (queue_of w1 camera))
         | CompleteRequest r =>
             queue_of w1 camera = r :: queue_of w2 camera ∧
             S (length (queue_of w2 camera)) = length (queue_of w1 camera)
         end).
Proof.
  intros H Hc Hnd Hlive Hfifo.
  destruct (run_calls_inv cs w camera data H Hc Hnd Hlive Hfifo)
    as (w' & data' & Hrun & H' & Hq' & _ & _ & _).
  exists w'. rewrite (queue_of_Some _ _ _ H').
  split; [done|]. split; [done|]. split; [|split].
  - apply (f_equal length) in Hq'. rewrite !length_app in Hq'. lia.
  - split.
    + intros E. by rewrite E, app_nil_r in Hq'.
    + intros E. rewrite <- E in Hq'.
      rewrite <- (app_nil_r (completed cs)) in Hq' at 2.
      by apply app_inv_head in Hq'.
  - intros cs1 c cs2 ->.
    destruct (respects_fifo_app _ _ _ Hfifo) as [Hf1 Hf2].
    rewrite completed_app in Hlive, Hnd.
    apply NoDup_app in Hnd as (Hnd1 & Hdisj & Hnd2).
    destruct (run_calls_inv cs1 w camera data H Hc Hnd1)
      as (w1 & data1 & Hrun1 & H1 & Hq1 & Hc1 & Hl1 & _);
      [intros r Hr; apply Hlive, elem_of_app; by left | done |].
    specialize (Hf2 _ Hq1).
    change (c :: cs2) with ([c] ++ cs2) in Hf2, Hlive, Hdisj.
    destruct (respects_fifo_app _ _ _ Hf2) as [Hf3 _].
    rewrite completed_app in Hlive, Hdisj.
    destruct (call_ok w1 camera data1 c H1 Hc1) as (w2 & data2 & Hcall & H2 & Hq2 & _);
      [|done|].
    { intros r Hr. rewrite Hl1.
      - apply Hlive, elem_of_app. right. apply elem_of_app. by left.
      - intros Hr1. apply (Hdisj r Hr1), elem_of_app. by left. }
    exists w1, w2. split; [done|]. split; [done|].
    rewrite (queue_of_Some _ _ _ H1), (queue_of_Some _ _ _ H2).
    destruct c as [r|r]; rewrite Hq2; split; try done.
    rewrite length_app. simpl. lia.
Qed.

(** ** The registry of factories *)

Section registry.
Import PipelineHandlerFactory.

Lemma registerType_ok factory s name :
  names s !! factory = Some name →
  ∃ line, registerType factory s =
            Ok (mkRegistry (names s) (factories s ++ [factory]) (log s ++ [line])).
Proof. intros H. unfold registerType. rewrite H. eauto. Qed.

Lemma registerTypes_ok fs : ∀ s,
  (∀ f, f ∈ fs → is_Some (names s !! f)) →
  ∃ s', registerTypes fs s = Ok s' ∧
        factories s' = factories s ++ fs ∧
        names s' = names s.
Proof.
  induction fs as [|f fs IH]; intros s Hlive.
  - exists s. by rewrite app_nil_r.
  - destruct (Hlive f) as [name Hname]; [left|].
    destruct (registerType_ok f s name Hname) as [line Hreg].
    destruct (IH (mkRegistry (names s) (factories s ++ [f]) (log s ++ [line])))
      as (s' & Hrun & Hfs & Hnames).
    { intros g Hg. simpl. apply Hlive. by right. }
    exists s'. simpl. rewrite Hreg. split; [done|]. split; [|done].
    rewrite Hfs. simpl. by rewrite <- app_assoc.
Qed.

(** C9. Registering the factories [fs] one after the other appends them to
    the list of factories in the order of registration: the entries already
    there keep their places, the new ones follow in order, whatever their
    names are, and a factory named like another one is kept as well. *)
Theorem registerTypes_appends fs s :
  (∀ f, f ∈ fs → is_Some (names s !! f)) →
  ∃ s', registerTypes fs s = Ok s' ∧
        factories s' = factories s ++ fs ∧
        (∀ i f, factories s !! i = Some f → factories s' !! i = Some f) ∧
        (∀ i f, fs !! i = Some f →
                factories s' !! (length (factories s) + i) = Some f) ∧
        length (factories s') = length (factories s) + length fs ∧
        (∀ i j f g, i < j → fs !! i = Some f → fs !! j = Some g →
                    names s !! f = names s !! g →
                    factories s' !! (length (factories s) + i) = Some f ∧
                    factories s' !! (length (factories s) + j) = Some g).
Proof.
  intros Hlive.
  destruct (registerTypes_ok fs s Hlive) as (s' & Hrun & Hfs & _).
  exists s'. rewrite Hfs. repeat split; try done.
  - intros i f Hi. by apply lookup_app_l_Some.
  - intros i f Hi. by rewrite lookup_app_r, Nat.add_comm, Nat.add_sub by lia.
  - by rewrite length_app.
  - by rewrite lookup_app_r, Nat.add_comm, Nat.add_sub by lia.
  - by rewrite lookup_app_r, Nat.add_comm, Nat.add_sub by lia.
Qed.

End registry.

(** ** Matching releases what it acquired *)

Section matching.
Import Match.

Lemma release_all_difference held acquired :
  release_all held acquired = acquired ∖ list_to_set held.
Proof.
  induction held as [|h held IH]; simpl.
  - set_solver.
  - unfold release at 1. rewrite IH. set_solver.
Qed.

Lemma acquire_all_failure required : ∀ held acquired before,
  (∀ h, h ∈ held → h ∉ before) →
  acquired = list_to_set held ∪ before →
  (acquire_all required held acquired).1 = false →
  (acquire_all required held acquired).2 = before.
Proof.
  induction required as [|h rest IH]; intros held acquired before Hheld Hacq Hfail.
  - done.
  - simpl in *. unfold acquire in *.
    destruct (decide (h ∈ acquired)) as [Hin|Hnotin]; simpl in *.
    + rewrite release_all_difference, Hacq.
      apply set_eq. intros x. rewrite elem_of_difference, elem_of_union.
      rewrite elem_of_list_to_set. split; [tauto|].
      intros Hx. split; [by right|]. intros Hx'. by apply (Hheld x).
    + apply (IH (h :: held)); [| |done].
      * intros x [->|Hx]%elem_of_cons; [|by apply Hheld].
        intros Hb. apply Hnotin. rewrite Hacq. set_solver.
      * rewrite Hacq. set_solver.
Qed.

Lemma acquire_all_busy required : ∀ held acquired h,
  h ∈ required → h ∈ acquired →
  (acquire_all required held acquired).1 = false.
Proof.
  induction required as [|x rest IH]; intros held acquired h Hreq Hacq.
  - by apply not_elem_of_nil in Hreq.
  - simpl. unfold acquire.
    destruct (decide (x ∈ acquired)) as [Hin|Hnotin]; [done|].
    apply elem_of_cons in Hreq as [->|Hreq]; [done|].
    apply (IH _ _ h); [done|set_solver].
Qed.

(** C6. A match attempt that reports no match leaves the set of acquired
    devices as it was before the attempt; and it reports no match whenever
    one of the required devices is already acquired. *)
Theorem match_devices_failure available required acquired :
  ((match_devices available required acquired).1 = false →
   (match_devices available required acquired).2 = acquired) ∧
  ((∃ h, h ∈ required ∧ h ∈ acquired) →
   match_devices available required acquired = (false, acquired)).
Proof.
  assert ((match_devices available required acquired).1 = false →
          (match_devices available required acquired).2 = acquired) as Hrestore.
  { unfold match_devices. destruct (forallb _ required); [|done].
    apply acquire_all_failure; [by intros h Hh%not_elem_of_nil | set_solver]. }
  split; [done|].
  intros (h & Hreq & Hacq).
  assert ((match_devices available required acquired).1 = false) as Hfail.
  { unfold match_devices. destruct (forallb _ required); [|done].
    by apply (acquire_all_busy _ _ _ h). }
  specialize (Hrestore Hfail).
  destruct (match_devices available required acquired). simpl in *. by subst.
Qed.

End matching.

(** ** Hot-unplug *)

Lemma elem_of_remove_first x y l : y ∈ remove_first x l → y ∈ l.
Proof.
  induction l as [|z l IH]; simpl; [done|].
  destruct (decide (z = x)) as [->|Hne].
  - intros Hy. by right.
  - intros [->|Hy]%elem_of_cons; [left | right; by apply IH].
Qed.

Lemma elem_of_remove_first_ne x y l : y ≠ x → y ∈ l → y ∈ remove_first x l.
Proof.
  intros Hne. induction l as [|z l IH]; simpl; [done|].
  destruct (decide (z = x)) as [->|Hzx].
  - intros [->|Hy]%elem_of_cons; [done | done].
  - intros [->|Hy]%elem_of_cons; [left | right; by apply IH].
Qed.

Lemma filter_ext_elem_of {A} (P Q : A → Prop)
    `{!∀ x, Decision (P x), !∀ x, Decision (Q x)} (l : list A) :
  (∀ x, x ∈ l → P x ↔ Q x) → filter P l = filter Q l.
Proof.
  induction l as [|x l IH]; intros Hext; [done|].
  rewrite !filter_cons.
  assert (filter P l = filter Q l) as ->
    by (apply IH; intros y Hy; apply Hext; by right).
  destruct (decide (P x)) as [HP|HP], (decide (Q x)) as [HQ|HQ]; try done.
  - destruct HQ. apply Hext; [left | done].
  - destruct HP. apply Hext; [left | done].
Qed.

Lemma resolves_after_disconnect_le camera w c :
  resolves (after_disconnect camera w) c = true → resolves w c = true.
Proof.
  unfold resolves. simpl. rewrite !orb_true_iff, !bool_decide_eq_true.
  intros [H|H]; [left; by eapply elem_of_remove_first | by right].
Qed.

Lemma resolves_after_disconnect_ne camera w c :
  c ≠ camera → resolves (after_disconnect camera w) c = resolves w c.
Proof.
  intros Hne. apply eq_true_iff_eq. split.
  - apply resolves_after_disconnect_le.
  - unfold resolves. simpl. rewrite !orb_true_iff, !bool_decide_eq_true.
    intros [H|H]; [left; by apply elem_of_remove_first_ne | by right].
Qed.

Lemma disconnect_each_cons_alive ptr rest w :
  resolves w ptr = true →
  disconnect_each (ptr :: rest) w = disconnect_each rest (after_disconnect ptr w).
Proof.
  intros H. simpl. unfold weak_lock, Camera_disconnect, CameraManager_removeCamera,
    Camera_deref. mstep. rewrite H. simpl. by rewrite H.
Qed.

Lemma disconnect_each_cons_dead ptr rest w :
  resolves w ptr = false →
  disconnect_each (ptr :: rest) w = disconnect_each rest w.
Proof. intros H. simpl. unfold weak_lock. mstep. by rewrite H. Qed.

Lemma disconnect_each_spec ptrs : ∀ w,
  ∃ w' cs,
    disconnect_each ptrs w = Ok (tt, w') ∧
    trace w' = trace w ++ disconnect_calls cs ∧
    sublist cs ptrs ∧
    (∀ c, c ∈ cs → resolves w c = true) ∧
    (∀ c, c ∈ ptrs → resolves w c = true → c ∈ cs) ∧
    (NoDup ptrs → cs = filter (λ c, resolves w c = true) ptrs) ∧
    disconnected w' = list_to_set cs ∪ disconnected w ∧
    cameraData_ w' = cameraData_ w ∧ cameras_ w' = cameras_ w ∧
    camera_owners w' = camera_owners w ∧ slots w' = slots w ∧
    requests w' = requests w ∧ buffers w' = buffers w ∧
    manager_cameras w' = foldl (λ l c, remove_first c l) (manager_cameras w) cs.
Proof.
  induction ptrs as [|ptr rest IH]; intros w.
  - exists w, []. simpl. rewrite app_nil_r. repeat split; try done.
    + intros c Hc. by apply not_elem_of_nil in Hc.
    + set_solver.
  - destruct (resolves w ptr) eqn:Hptr.
    + rewrite (disconnect_each_cons_alive _ _ _ Hptr).
      destruct (IH (after_disconnect ptr w))
        as (w' & cs & Hrun & Htr & Hsub & Hres & Hall & Hnd & Hdis & Hframe).
      exists w', (ptr :: cs). split; [done|]. split.
      { rewrite Htr. simpl. by rewrite <- !app_assoc. }
      split; [by apply sublist_skip|]. split.
      { intros c [->|Hc]%elem_of_cons; [done|].
        by apply (resolves_after_disconnect_le ptr), Hres. }
      split.
      { intros c [->|Hc]%elem_of_cons Hr; [left|].
        destruct (decide (c = ptr)) as [->|Hne]; [left|right].
        apply Hall; [done|]. by rewrite resolves_after_disconnect_ne. }
      split.
      { intros [Hnotin Hnd']%NoDup_cons. rewrite filter_cons_True by done.
        f_equal. rewrite (Hnd Hnd'). apply filter_ext_elem_of.
        intros c Hc.
        rewrite resolves_after_disconnect_ne; [done|]. by intros ->. }
      split.
      { rewrite Hdis. simpl. set_solver. }
      destruct Hframe as (? & ? & ? & ? & ? & ? & ?). by repeat split.
    + rewrite (disconnect_each_cons_dead _ _ _ Hptr).
      destruct (IH w) as (w' & cs & Hrun & Htr & Hsub & Hres & Hall & Hnd & Hdis & Hframe).
      exists w', cs. split; [done|]. split; [done|].
      split; [by apply sublist_cons|]. split; [done|]. split.
      { intros c [->|Hc]%elem_of_cons Hr; [congruence|]. by apply Hall. }
      split; [|done].
      intros [Hnotin Hnd']%NoDup_cons. rewrite filter_cons_False; [by apply Hnd|].
      by rewrite Hptr.
Qed.

Lemma disconnect_calls_NoDup cs : NoDup cs → NoDup (disconnect_calls cs).
Proof.
  intros Hnd. unfold disconnect_calls. apply NoDup_bind; [| |done].
  - intros c1 c2 e _ _ H1 H2.
    apply elem_of_cons in H1 as [->|H1].
    + apply elem_of_cons in H2 as [H2|H2]; [congruence|].
      apply list_elem_of_singleton in H2. congruence.
    + apply list_elem_of_singleton in H1 as ->.
      apply elem_of_cons in H2 as [H2|H2]; [congruence|].
      apply list_elem_of_singleton in H2. congruence.
  - intros c _. apply NoDup_cons. split; [|apply NoDup_singleton].
    intros H%list_elem_of_singleton. congruence.
Qed.

(** C7. When a media device reports disconnection the handler first
    disconnects its slot from the signal of the device. Without cameras that
    is all it does. Otherwise it goes through its camera references in order:
    a camera whose reference resolves is disconnected and then removed from
    the camera manager, a destroyed one is skipped with no call at all, so
    the handler always returns; with every camera referenced once, each live
    camera gets exactly one of each call. The list of cameras is empty
    afterwards. *)
Theorem mediaDeviceDisconnected_cascade w media :
  ∃ w' cs,
    mediaDeviceDisconnected media w = Ok (tt, w') ∧
    trace w' = trace w ++ EvSignalDisconnect media :: disconnect_calls cs ∧
    slots w' = erase media (slots w) ∧
    cameras_ w' = [] ∧
    (cameras_ w = [] →
     cs = [] ∧ w' = emit (EvSignalDisconnect media) (set_slots (erase media) w)) ∧
    sublist cs (cameras_ w) ∧
    (∀ c, c ∈ cs → resolves w c = true) ∧
    (∀ c, c ∈ cameras_ w → resolves w c = true → c ∈ cs) ∧
    (NoDup (cameras_ w) →
     cs = filter (λ c, resolves w c = true) (cameras_ w) ∧
     NoDup (disconnect_calls cs)) ∧
    disconnected w' = list_to_set cs ∪ disconnected w ∧
    manager_cameras w' = foldl (λ l c, remove_first c l) (manager_cameras w) cs.
Proof.
  set (w0 := emit (EvSignalDisconnect media) (set_slots (erase media) w)).
  assert (mediaDeviceDisconnected media w =
            (if bool_decide (cameras_ w = []) then ret tt else disconnect) w0) as Hstep
    by done.
  destruct (cameras_ w) as [|ptr rest] eqn:Hcams.
  - exists w0, []. rewrite Hstep. simpl. repeat split; try done.
    + intros c Hc. by apply not_elem_of_nil in Hc.
    + apply NoDup_nil_2.
    + set_solver.
  - destruct (disconnect_each_spec (ptr :: rest) w0)
      as (w1 & cs & Hrun & Htr & Hsub & Hres & Hall & Hnd & Hdis & Hcd & Hcam & Hown
          & Hsl & Hreq & Hbuf & Hmgr).
    exists (set_cameras (λ _, []) w1), cs. rewrite Hstep.
    rewrite bool_decide_eq_false_2 by done.
    split.
    { unfold disconnect. mstep. change (cameras_ w0) with (cameras_ w).
      rewrite Hcams. fold (disconnect_each (ptr :: rest)). by rewrite Hrun. }
    simpl. rewrite Htr, Hsl, Hdis, Hmgr. simpl.
    split; [by rewrite <- app_assoc|].
    repeat split; try done.
    + by apply Hnd.
    + apply disconnect_calls_NoDup. by eapply sublist_NoDup.
Qed.

(** ** Stopping a camera *)

Lemma erase_head b p : b ∉ p → erase b (b :: p) = p.
Proof.
  intros Hb. unfold erase. rewrite filter_cons_False by (intros H; by apply H).
  induction p as [|x p IH]; [done|].
  apply not_elem_of_cons in Hb as [Hne Hb].
  rewrite filter_cons_True by done. f_equal. by apply IH.
Qed.

Lemma cancel_buffers_is_Some p : ∀ bufs b,
  is_Some (bufs !! b) → is_Some (cancel_buffers p bufs !! b).
Proof.
  induction p as [|x p IH]; intros bufs b Hb; [done|].
  simpl. apply IH. destruct (decide (x = b)) as [->|Hne].
  - by rewrite lookup_insert_eq.
  - by rewrite lookup_insert_ne.
Qed.

Lemma cancel_buffers_elem_of p : ∀ bufs b,
  b ∈ p → cancel_buffers p bufs !! b = Some BufferCancelled.
Proof.
  induction p as [|x p IH]; intros bufs b Hb; [by apply not_elem_of_nil in Hb|].
  simpl. destruct (decide (b ∈ p)) as [Hin|Hnotin]; [by apply IH|].
  apply elem_of_cons in Hb as [->|Hb]; [|done].
  clear IH. revert bufs. induction p as [|y p IH]; intros bufs; simpl.
  - by rewrite lookup_insert_eq.
  - apply not_elem_of_cons in Hnotin as [Hne Hnotin].
    rewrite insert_insert_ne by done. by apply IH.
Qed.

Lemma cancel_buffers_app p1 p2 bufs :
  cancel_buffers (p1 ++ p2) bufs = cancel_buffers p2 (cancel_buffers p1 bufs).
Proof. unfold cancel_buffers. by rewrite foldl_app. Qed.

Lemma stop_cancel_buffer_ok w camera request rq b p :
  resolves w camera = true →
  requests w !! request = Some rq →
  pending_ rq = b :: p →
  is_Some (buffers w !! b) →
  stop_cancel_buffer camera request w =
    Ok (tt, set_requests
              <[request := mkRequest (erase b (b :: p)) (status_ rq)]>
              (emit (EvBufferCompleted camera request b (Some BufferCancelled))
                 (set_buffers <[b := BufferCancelled]> w))).
Proof.
  intros Hc Hr Hp [st Hb].
  unfold stop_cancel_buffer, pending.
  rewrite (bind_Ok _ _ _ _ _ (bind_Ok _ _ _ _ _ (Request_deref_ok _ _ _ Hr))).
  rewrite Hp.
  change ((front (b :: p) ≫= _) w) with
    ((Buffer_cancel b ;; _ ← completeBuffer camera request b; ret tt) w).
  assert (Buffer_cancel b w = Ok (tt, set_buffers <[b := BufferCancelled]> w)) as Hcancel.
  { unfold Buffer_cancel. mstep. by rewrite Hb. }
  rewrite (bind_Ok _ _ _ _ _ Hcancel).
  rewrite (bind_Ok _ _ _ _ _
             (completeBuffer_ok (set_buffers <[b := BufferCancelled]> w)
                camera request b rq Hc Hr)).
  simpl. by rewrite lookup_insert_eq, Hp.
Qed.

Lemma pending_ok w request rq :
  requests w !! request = Some rq → pending request w = Ok (pending_ rq, w).
Proof.
  intros Hr. unfold pending.
  by rewrite (bind_Ok _ _ _ _ _ (Request_deref_ok _ _ _ Hr)).
Qed.

Lemma cancel_pending_loop camera request p : ∀ w rq n,
  NoDup p →
  resolves w camera = true →
  requests w !! request = Some rq →
  pending_ rq = p →
  (∀ b, b ∈ p → is_Some (buffers w !! b)) →
  length p < n →
  while n (p ← pending request; ret (negb (bool_decide (p = []))))
          (stop_cancel_buffer camera request) w =
    Ok (tt, after_cancel_pending camera request (status_ rq) p w).
Proof.
  induction p as [|b p IH]; intros w rq n Hnd Hc Hr Hp Hlive Hn;
    (destruct n as [|n]; [simpl in Hn; lia|]); simpl.
  - rewrite (bind_Ok _ _ _ _ _ (bind_Ok _ _ _ _ _ (pending_ok _ _ _ Hr))).
    rewrite Hp. simpl. mstep. f_equal. f_equal.
    destruct w, rq. unfold after_cancel_pending. simpl in *. subst.
    rewrite insert_id by done. by rewrite app_nil_r.
  - apply NoDup_cons in Hnd as [Hb Hnd].
    rewrite (bind_Ok _ _ _ _ _ (bind_Ok _ _ _ _ _ (pending_ok _ _ _ Hr))).
    rewrite Hp. simpl.
    rewrite (bind_Ok _ _ _ _ _
               (stop_cancel_buffer_ok w camera request rq b p Hc Hr Hp
                  (Hlive b (list_elem_of_here _ _)))).
    rewrite erase_head by done.
    rewrite (IH _ (mkRequest p (status_ rq))); try done.
    + f_equal. f_equal. unfold after_cancel_pending. simpl.
      rewrite insert_insert_eq. by rewrite <- app_assoc.
    + simpl. by rewrite lookup_insert_eq.
    + intros b' Hb'. simpl.
      destruct (decide (b = b')) as [->|Hne].
      * by rewrite lookup_insert_eq.
      * rewrite lookup_insert_ne by done. apply Hlive. by right.
    + simpl in Hn. lia.
Qed.

Lemma stop_cancel_request_ok w camera data r q rq fuel :
  cameraData_ w !! camera = Some data →
  queuedRequests_ data = r :: q →
  resolves w camera = true →
  requests w !! r = Some rq →
  NoDup (pending_ rq) →
  (∀ b, b ∈ pending_ rq → is_Some (buffers w !! b)) →
  length (pending_ rq) < fuel →
  stop_cancel_request fuel camera w =
    Ok (tt, mkWorld (<[camera := mkCameraData (camera_ data) q]> (cameraData_ w))
              (cameras_ w) (manager_cameras w) (camera_owners w)
              (disconnected w) (slots w)
              (delete r (requests w))
              (cancel_buffers (pending_ rq) (buffers w))
              (trace w ++ cancel_notifications camera r (pending_ rq))).
Proof.
  intros H Hq Hc Hr Hnd Hlive Hfuel. unfold stop_cancel_request.
  rewrite (bind_Ok _ _ _ _ _ (queuedRequests_ok _ _ _ H)), Hq.
  change ((front (r :: q) ≫= ?k) w) with (k r w). cbv beta.
  rewrite (bind_Ok _ _ _ _ _ (pop_front_ok _ _ _ _ _ H Hq)).
  rewrite (bind_Ok _ _ _ _ _
             (cancel_pending_loop camera r (pending_ rq)
                (set_cameraData <[camera := mkCameraData (camera_ data) q]> w)
                rq fuel Hnd Hc Hr eq_refl Hlive Hfuel)).
  match goal with |- (_ ≫= _) ?wa = _ =>
    assert (requests wa !! r = Some (mkRequest [] (status_ rq))) as Hra
      by (simpl; apply lookup_insert_eq);
    rewrite (bind_Ok _ _ _ _ _ (Request_complete_ok wa r _ RequestCancelled Hra))
  end.
  rewrite (Camera_requestComplete_ok _ _ _ (mkRequest [] RequestCancelled));
    [|done|simpl; apply lookup_insert_eq].
  f_equal. f_equal. unfold set_requests, emit, cancel_notifications. simpl.
  by rewrite !delete_insert_eq, <- app_assoc.
Qed.

Lemma bind_ext_elem_of {A B} (f g : A → list B) (l : list A) :
  (∀ x, x ∈ l → f x = g x) → l ≫= f = l ≫= g.
Proof.
  induction l as [|x l IH]; intros Hext; [done|].
  change ((x :: l) ≫= f) with (f x ++ (l ≫= f)).
  change ((x :: l) ≫= g) with (g x ++ (l ≫= g)).
  rewrite (Hext x) by left. f_equal. apply IH. intros y Hy. apply Hext. by right.
Qed.

Lemma stop_loop camera q : ∀ w data n fuel,
  cameraData_ w !! camera = Some data →
  queuedRequests_ data = q →
  resolves w camera = true →
  NoDup q →
  (∀ r, r ∈ q → ∃ rq, requests w !! r = Some rq ∧ NoDup (pending_ rq) ∧
                      (∀ b, b ∈ pending_ rq → is_Some (buffers w !! b)) ∧
                      length (pending_ rq) < fuel) →
  length q < n →
  while n (q ← queuedRequests camera; ret (negb (bool_decide (q = []))))
          (stop_cancel_request fuel camera) w =
    Ok (tt, after_stop camera data q w).
Proof.
  induction q as [|r q IH]; intros w data n fuel H Hq Hc Hnd Hreqs Hn;
    (destruct n as [|n]; [simpl in Hn; lia|]); simpl.
  - rewrite (bind_Ok _ _ _ _ _ (bind_Ok _ _ _ _ _ (queuedRequests_ok _ _ _ H))).
    rewrite Hq. simpl. mstep. f_equal. f_equal.
    destruct w, data. unfold after_stop, stop_notifications. simpl in *. subst.
    rewrite insert_id by done. by rewrite app_nil_r.
  - apply NoDup_cons in Hnd as [Hr Hnd].
    destruct (Hreqs r) as (rq & Hrq & Hndp & Hlive & Hfuel); [left|].
    rewrite (bind_Ok _ _ _ _ _ (bind_Ok _ _ _ _ _ (queuedRequests_ok _ _ _ H))).
    rewrite Hq. simpl.
    rewrite (bind_Ok _ _ _ _ _
               (stop_cancel_request_ok w camera data r q rq fuel
                  H Hq Hc Hrq Hndp Hlive Hfuel)).
    rewrite (IH _ (mkCameraData (camera_ data) q)); try done.
    + f_equal. f_equal. unfold after_stop. simpl.
      assert (∀ r', r' ∈ q →
                pending_of (delete r (requests w)) r'
                = pending_of (requests w) r') as Hsame.
      { intros r' Hr'. unfold pending_of. rewrite lookup_delete_ne; [done|].
        by intros ->. }
      rewrite insert_insert_eq.
      rewrite (bind_ext_elem_of _ (pending_of (requests w)) q Hsame).
      unfold stop_notifications.
      rewrite (bind_ext_elem_of
                 (λ r', cancel_notifications camera r'
                          (pending_of (delete r (requests w)) r'))
                 (λ r', cancel_notifications camera r' (pending_of (requests w) r')) q)
        by (intros r' Hr'; by rewrite Hsame).
      change ((r :: q) ≫= pending_of (requests w))
        with (pending_of (requests w) r ++ (q ≫= pending_of (requests w))).
      change ((r :: q) ≫= ?f) with (f r ++ (q ≫= f)).
      cbv beta.
      assert (pending_of (requests w) r = pending_ rq) as ->
        by (unfold pending_of; by rewrite Hrq).
      by rewrite cancel_buffers_app, <- app_assoc.
    + simpl. apply lookup_insert_eq.
    + intros r' Hr'. destruct (Hreqs r') as (rq' & Hrq' & Hndp' & Hlive' & Hfuel');
        [by right|].
      exists rq'. simpl. rewrite lookup_delete_ne by (by intros ->).
      repeat split; try done.
      intros b Hb. by apply cancel_buffers_is_Some, Hlive'.
    + simpl in Hn. lia.
Qed.

Lemma stop_notifications_cons camera reqs r q :
  stop_notifications camera reqs (r :: q) =
    cancel_notifications camera r (pending_of reqs r)
    ++ stop_notifications camera reqs q.
Proof. done. Qed.

Lemma filter_request_cancel_notifications camera r p :
  filter (λ e, is_request_notification e) (cancel_notifications camera r p) =
    [EvRequestComplete camera r RequestCancelled].
Proof.
  unfold cancel_notifications. rewrite filter_app.
  assert (filter (λ e, is_request_notification e)
            (map (λ b, EvBufferCompleted camera r b (Some BufferCancelled)) p) = [])
    as ->.
  { induction p as [|b p IH]; [done|].
    rewrite map_cons, filter_cons_False; [exact IH | simpl; tauto]. }
  done.
Qed.

Lemma filter_buffer_cancel_notifications camera r p :
  filter (λ e, is_buffer_notification e) (cancel_notifications camera r p) =
    map (λ b, EvBufferCompleted camera r b (Some BufferCancelled)) p.
Proof.
  unfold cancel_notifications. rewrite filter_app.
  rewrite filter_cons_False, filter_nil, app_nil_r by (simpl; tauto).
  induction p as [|b p IH]; [done|].
  rewrite map_cons, filter_cons_True by (simpl; tauto). by rewrite IH.
Qed.

Lemma filter_request_stop_notifications camera reqs q :
  filter (λ e, is_request_notification e) (stop_notifications camera reqs q) =
    map (λ r, EvRequestComplete camera r RequestCancelled) q.
Proof.
  induction q as [|r q IH]; [done|].
  rewrite stop_notifications_cons, filter_app, IH.
  by rewrite filter_request_cancel_notifications.
Qed.

Lemma filter_buffer_stop_notifications camera reqs q :
  filter (λ e, is_buffer_notification e) (stop_notifications camera reqs q) =
    q ≫= (λ r, map (λ b, EvBufferCompleted camera r b (Some BufferCancelled))
                 (pending_of reqs r)).
Proof.
  induction q as [|r q IH]; [done|].
  rewrite stop_notifications_cons, filter_app, IH.
  by rewrite filter_buffer_cancel_notifications.
Qed.

Lemma length_buffer_notifications camera reqs q :
  length (q ≫= (λ r, map (λ b, EvBufferCompleted camera r b (Some BufferCancelled))
                       (pending_of reqs r))) =
    sum_list_with (λ r, length (pending_of reqs r)) q.
Proof.
  induction q as [|r q IH]; [done|].
  change ((r :: q) ≫= ?f) with (f r ++ (q ≫= f)). cbv beta.
  rewrite length_app, length_map, IH. done.
Qed.

Lemma elem_of_cancel_notifications camera r p e :
  e ∈ cancel_notifications camera r p ↔
    (∃ b, b ∈ p ∧ e = EvBufferCompleted camera r b (Some BufferCancelled)) ∨
    e = EvRequestComplete camera r RequestCancelled.
Proof.
  unfold cancel_notifications.
  rewrite elem_of_app, list_elem_of_singleton.
  change (map ?f p) with (f <$> p). rewrite list_elem_of_fmap.
  split; (intros [(b & H1 & H2)|H]; [left; by exists b | by right]).
Qed.

Lemma cancel_notifications_NoDup camera r p :
  NoDup p → NoDup (cancel_notifications camera r p).
Proof.
  intros Hnd. unfold cancel_notifications. apply NoDup_app. split; [|split].
  - change (map ?f p) with (f <$> p). apply NoDup_fmap_2; [|done].
    intros b1 b2 E. by injection E.
  - intros e He Hin. apply list_elem_of_singleton in Hin. subst e.
    change (map ?f p) with (f <$> p) in He.
    apply list_elem_of_fmap in He as (b & E & _). discriminate.
  - apply NoDup_singleton.
Qed.

Lemma stop_notifications_NoDup camera reqs q :
  NoDup q →
  (∀ r, r ∈ q → NoDup (pending_of reqs r)) →
  NoDup (stop_notifications camera reqs q).
Proof.
  intros Hnd Hp. unfold stop_notifications. apply NoDup_bind; [| |done].
  - intros r1 r2 e _ _ H1 H2.
    apply elem_of_cancel_notifications in H1, H2.
    destruct H1 as [(b1 & _ & ->)| ->], H2 as [(b2 & _ & E)|E]; congruence.
  - intros r Hr. by apply cancel_notifications_NoDup, Hp.
Qed.

Lemma cancel_requests_elem_of q : ∀ reqs r,
  r ∈ q → cancel_requests q reqs !! r = None.
Proof.
  assert (∀ q reqs r, reqs !! r = None → cancel_requests q reqs !! r = None) as Hnone.
  { clear. induction q as [|x q IH]; intros reqs r Hr; [done|].
    simpl. apply IH. destruct (decide (x = r)) as [->|Hne].
    - apply lookup_delete_eq.
    - by rewrite lookup_delete_ne. }
  induction q as [|x q IH]; intros reqs r Hr; [by apply not_elem_of_nil in Hr|].
  simpl. apply elem_of_cons in Hr as [->|Hr]; [|by apply IH].
  apply Hnone, lookup_delete_eq.
Qed.

(** C1. On a camera whose queue holds [N] distinct live requests, [stop]
    returns once it has enough steps; it goes through the requests in queue
    order and, for each, cancels every pending buffer and signals its
    completion, then marks the request RequestCancelled and signals it, in
    that state, to the camera. Afterwards the queue is empty, [N] request
    notifications have fired, in queue order, one buffer notification has
    fired for every buffer that was pending, no notification has fired twice,
    the buffers are cancelled and the requests are gone. *)
Theorem stop_cancels_queue w camera data fuel :
  cameraData_ w !! camera = Some data →
  resolves w camera = true →
  NoDup (queuedRequests_ data) →
  (∀ r, r ∈ queuedRequests_ data →
        ∃ rq, requests w !! r = Some rq ∧ NoDup (pending_ rq) ∧
              (∀ b, b ∈ pending_ rq → is_Some (buffers w !! b)) ∧
              length (pending_ rq) < fuel) →
  length (queuedRequests_ data) < fuel →
  ∃ w' evs,
    stop fuel camera w = Ok (tt, w') ∧
    queue_of w' camera = [] ∧
    trace w' = trace w ++ evs ∧
    evs = stop_notifications camera (requests w) (queuedRequests_ data) ∧
    filter (λ e, is_request_notification e) evs =
      map (λ r, EvRequestComplete camera r RequestCancelled) (queuedRequests_ data) ∧
    length (filter (λ e, is_request_notification e) evs) =
      length (queuedRequests_ data) ∧
    filter (λ e, is_buffer_notification e) evs =
      queuedRequests_ data ≫=
        (λ r, map (λ b, EvBufferCompleted camera r b (Some BufferCancelled))
                (pending_of (requests w) r)) ∧
    length (filter (λ e, is_buffer_notification e) evs) =
      sum_list_with (λ r, length (pending_of (requests w) r)) (queuedRequests_ data) ∧
    NoDup evs ∧
    (∀ r, r ∈ queuedRequests_ data → requests w' !! r = None) ∧
    (∀ r b, r ∈ queuedRequests_ data → b ∈ pending_of (requests w) r →
            buffers w' !! b = Some BufferCancelled).
Proof.
  intros H Hc Hnd Hreqs Hfuel.
  exists (after_stop camera data (queuedRequests_ data) w).
  exists (stop_notifications camera (requests w) (queuedRequests_ data)).
  split.
  { unfold stop. rewrite (bind_Ok _ _ _ _ _ (cameraData_Some _ _ _ H)).
    by apply stop_loop. }
  split.
  { unfold queue_of. simpl. by rewrite lookup_insert_eq. }
  split; [done|]. split; [done|].
  rewrite filter_request_stop_notifications, filter_buffer_stop_notifications.
  split; [done|]. split; [by rewrite length_map|]. split; [done|].
  split; [apply length_buffer_notifications|]. split.
  { apply stop_notifications_NoDup; [done|]. intros r Hr.
    destruct (Hreqs r Hr) as (rq & Hrq & Hndp & _).
    unfold pending_of. by rewrite Hrq. }
  split.
  { intros r Hr. simpl. by apply cancel_requests_elem_of. }
  intros r b Hr Hb. simpl. apply cancel_buffers_elem_of.
  apply list_elem_of_bind. by exists r.
Qed.

(** A request that is queued twice is accessed by [stop] after its first
    completion has been signalled, when it is no longer there. *)
Example stop_request_queued_twice :
  ∃ w, (queueRequest 1%positive 10%positive ;; queueRequest 1%positive 10%positive)
         (set_cameraData <[1%positive := mkCameraData (Some 1%positive) []]> example_world)
       = Ok (0%Z, w) ∧
       stop 3 1%positive w = Undefined.
Proof. eexists. split; [reflexivity|]. vm_compute. reflexivity. Qed.

(** The constructor of a factory registers the new object last. *)
Lemma construct_registers name s :
  ∃ s', PipelineHandlerFactory.construct name s = Ok s' ∧
        PipelineHandlerFactory.factories s' =
          PipelineHandlerFactory.factories s
          ++ [fresh (dom (PipelineHandlerFactory.names s))] ∧
        PipelineHandlerFactory.names s'
          !! fresh (dom (PipelineHandlerFactory.names s)) = Some name.
Proof.
  unfold PipelineHandlerFactory.construct, PipelineHandlerFactory.registerType.
  simpl. rewrite lookup_insert_eq. eexists. split; [done|]. simpl.
  by rewrite lookup_insert_eq.
Qed.

(** * The theorems at work on the example *)

Ltac elem_cases H :=
  repeat (apply elem_of_cons in H as [->|H]);
  try (by apply not_elem_of_nil in H).

Lemma cameraData_after_registerCameras_witness :
  cameraData_ fresh_world = ∅ ∧
  (∃ w', registerCameras
           [(1%positive, mkCameraData None []);
            (2%positive, mkCameraData None [20%positive]);
            (1%positive, mkCameraData None [30%positive])] fresh_world = Ok (tt, w') ∧
         cameraData 1%positive w' =
           Ok (mkCameraData (Some 1%positive) [30%positive], w')) ∧
  (∃ w', registerCameras [(1%positive, mkCameraData None [])] fresh_world = Ok (tt, w') ∧
         cameraData 3%positive w' = Fatal).
Proof.
  split; [reflexivity|]. split.
  - exact (cameraData_after_registerCameras fresh_world
             [(1%positive, mkCameraData None []);
              (2%positive, mkCameraData None [20%positive]);
              (1%positive, mkCameraData None [30%positive])] 1%positive eq_refl).
  - exact (cameraData_after_registerCameras fresh_world
             [(1%positive, mkCameraData None [])] 3%positive eq_refl).
Defined.

Lemma queueRequest_returns_0_witness :
  cameraData_ example_world !! 1%positive = Some example_data ∧
  ∃ w', queueRequest 1%positive 12%positive example_world = Ok (0%Z, w') ∧
        queue_of w' 1%positive = [10%positive; 11%positive; 12%positive].
Proof.
  split; [reflexivity|].
  destruct (queueRequest_returns_0 example_world 1%positive 12%positive example_data
              eq_refl) as (w' & Hrun & Hq & _).
  exists w'. split; [exact Hrun | exact Hq].
Defined.

Lemma completeRequest_not_front_witness :
  (∀ data, cameraData_ example_world !! 1%positive = Some data →
           ∃ f rest, queuedRequests_ data = f :: rest ∧ 11%positive ≠ f) ∧
  completeRequest 1%positive 11%positive example_world = Fatal.
Proof.
  assert (∀ data, cameraData_ example_world !! 1%positive = Some data →
                  ∃ f rest, queuedRequests_ data = f :: rest ∧ 11%positive ≠ f) as H.
  { intros data Hd. vm_compute in Hd. injection Hd as <-.
    exists 10%positive, [11%positive]. split; [reflexivity | discriminate]. }
  split; [exact H|].
  exact (completeRequest_not_front example_world 1%positive 11%positive H).
Defined.

Lemma completeRequest_front_witness :
  cameraData_ example_world !! 1%positive = Some example_data ∧
  resolves example_world 1%positive = true ∧
  ∃ w', completeRequest 1%positive 10%positive example_world = Ok (tt, w') ∧
        queue_of w' 1%positive = [11%positive] ∧
        requests w' !! 10%positive = None ∧
        trace w' = [EvRequestComplete 1%positive 10%positive RequestComplete].
Proof.
  split; [reflexivity|]. split; [reflexivity|].
  destruct (completeRequest_front example_world 1%positive 10%positive example_data
              [11%positive] (mkRequest [100%positive; 101%positive] RequestPending)
              eq_refl eq_refl eq_refl eq_refl)
    as (w' & Hrun & Hq & Ht & Hr & _).
  exists w'. split; [exact Hrun|]. split; [exact Hq|]. split; [|exact Ht].
  rewrite Hr. reflexivity.
Defined.

Lemma completeBuffer_spec_witness :
  resolves example_world 1%positive = true ∧
  100%positive ∈ [100%positive; 101%positive] ∧
  ∃ last w' rq',
    completeBuffer 1%positive 10%positive 100%positive example_world = Ok (last, w') ∧
    trace w' = [EvBufferCompleted 1%positive 10%positive 100%positive (Some BufferPending)] ∧
    requests w' = <[10%positive := rq']> (requests example_world) ∧
    (100%positive ∉ pending_ rq') ∧
    (last = true ↔ ∀ b, b ∈ [100%positive; 101%positive] → b = 100%positive).
Proof.
  split; [reflexivity|]. split; [apply list_elem_of_here|].
  destruct (completeBuffer_spec example_world 1%positive 10%positive 100%positive
              (mkRequest [100%positive; 101%positive] RequestPending)
              eq_refl eq_refl (list_elem_of_here _ _))
    as (last & w' & rq' & Hrun & Ht & Hr & Hb & _ & Hlast & _).
  exists last, w', rq'. repeat split; try assumption; apply Hlast.
Defined.

Lemma run_calls_queue_witness :
  respects_fifo (queuedRequests_ example_data)
    [CompleteRequest 10%positive; QueueRequest 12%positive;
     CompleteRequest 11%positive; CompleteRequest 12%positive] = true ∧
  ∃ w', run_calls 1%positive
          [CompleteRequest 10%positive; QueueRequest 12%positive;
           CompleteRequest 11%positive; CompleteRequest 12%positive]
          example_world = Ok (tt, w') ∧
        queue_of w' 1%positive = [].
Proof.
  split; [reflexivity|].
  assert (NoDup (completed
                   [CompleteRequest 10%positive; QueueRequest 12%positive;
                    CompleteRequest 11%positive; CompleteRequest 12%positive])) as Hnd.
  { change (NoDup [10%positive; 11%positive; 12%positive]). compute_done. }
  assert (∀ r, r ∈ completed [CompleteRequest 10%positive; QueueRequest 12%positive;
                               CompleteRequest 11%positive; CompleteRequest 12%positive] →
               is_Some (requests example_world !! r)) as Hlive.
  { intros r Hr. change (r ∈ [10%positive; 11%positive; 12%positive]) in Hr.
    elem_cases Hr; vm_compute; eauto. }
  destruct (run_calls_queue example_world 1%positive example_data _
              eq_refl eq_refl Hnd Hlive eq_refl)
    as (w' & Hrun & _ & _ & Hempty & _).
  exists w'. split; [exact Hrun|]. apply Hempty. reflexivity.
Defined.

Lemma registerTypes_appends_witness :
  (∀ f, f ∈ [1%positive; 2%positive] →
        is_Some (PipelineHandlerFactory.names example_registry !! f)) ∧
  PipelineHandlerFactory.names example_registry !! 1%positive =
    PipelineHandlerFactory.names example_registry !! 2%positive ∧
  ∃ s', PipelineHandlerFactory.registerTypes [1%positive; 2%positive] example_registry
          = Ok s' ∧
        PipelineHandlerFactory.factories s' = [1%positive; 2%positive].
Proof.
  assert (∀ f, f ∈ [1%positive; 2%positive] →
               is_Some (PipelineHandlerFactory.names example_registry !! f)) as Hlive.
  { intros f Hf. elem_cases Hf; vm_compute; eauto. }
  split; [exact Hlive|]. split; [reflexivity|].
  destruct (registerTypes_appends [1%positive; 2%positive] example_registry Hlive)
    as (s' & Hrun & Hfs & _).
  exists s'. split; [exact Hrun | exact Hfs].
Defined.

Lemma match_devices_failure_witness :
  (∃ h, h ∈ [1%positive; 2%positive; 3%positive] ∧ h ∈ ({[3%positive]} : gset positive)) ∧
  Match.match_devices {[1%positive; 2%positive; 3%positive]}
    [1%positive; 2%positive; 3%positive] {[3%positive]} = (false, {[3%positive]}).
Proof.
  assert (∃ h, h ∈ [1%positive; 2%positive; 3%positive] ∧
               h ∈ ({[3%positive]} : gset positive)) as Hbusy.
  { exists 3%positive. split; [|by apply elem_of_singleton].
    right. right. left. }
  split; [exact Hbusy|].
  exact (proj2 (match_devices_failure {[1%positive; 2%positive; 3%positive]}
                  [1%positive; 2%positive; 3%positive] {[3%positive]}) Hbusy).
Defined.

Lemma mediaDeviceDisconnected_cascade_witness :
  NoDup (cameras_ example_world) ∧
  resolves example_world 1%positive = true ∧
  resolves example_world 2%positive = false ∧
  ∃ w', mediaDeviceDisconnected 7%positive example_world = Ok (tt, w') ∧
        trace w' = [EvSignalDisconnect 7%positive; EvCameraDisconnect 1%positive;
                    EvRemoveCamera 1%positive] ∧
        cameras_ w' = [] ∧
        slots w' = [].
Proof.
  assert (NoDup (cameras_ example_world)) as Hnd by compute_done.
  split; [exact Hnd|]. split; [reflexivity|]. split; [reflexivity|].
  destruct (mediaDeviceDisconnected_cascade example_world 7%positive)
    as (w' & cs & Hrun & Ht & Hs & Hc & _ & _ & _ & _ & Hcs & _).
  destruct (Hcs Hnd) as [-> _].
  exists w'. split; [exact Hrun|]. split; [exact Ht|]. split; [exact Hc | exact Hs].
Defined.

Lemma stop_cancels_queue_witness :
  cameraData_ example_world !! 1%positive = Some example_data ∧
  resolves example_world 1%positive = true ∧
  NoDup (queuedRequests_ example_data) ∧
  ∃ w', stop 3 1%positive example_world = Ok (tt, w') ∧
        queue_of w' 1%positive = [] ∧
        trace w' =
          [EvBufferCompleted 1%positive 10%positive 100%positive (Some BufferCancelled);
           EvBufferCompleted 1%positive 10%positive 101%positive (Some BufferCancelled);
           EvRequestComplete 1%positive 10%positive RequestCancelled;
           EvBufferCompleted 1%positive 11%positive 102%positive (Some BufferCancelled);
           EvRequestComplete 1%positive 11%positive RequestCancelled].
Proof.
  assert (NoDup (queuedRequests_ example_data)) as Hnd by compute_done.
  assert (∀ r, r ∈ queuedRequests_ example_data →
               ∃ rq, requests example_world !! r = Some rq ∧ NoDup (pending_ rq) ∧
                     (∀ b, b ∈ pending_ rq → is_Some (buffers example_world !! b)) ∧
                     length (pending_ rq) < 3) as Hreqs.
  { intros r Hr. unfold example_data in Hr. simpl in Hr. elem_cases Hr.
    - exists (mkRequest [100%positive; 101%positive] RequestPending).
      split; [reflexivity|]. split; [compute_done|].
      split; [|simpl; lia].
      intros b Hb. simpl in Hb. elem_cases Hb; vm_compute; eauto.
    - exists (mkRequest [102%positive] RequestPending).
      split; [reflexivity|]. split; [apply NoDup_singleton|].
      split; [|simpl; lia].
      intros b Hb. simpl in Hb. elem_cases Hb; vm_compute; eauto. }
  split; [reflexivity|]. split; [reflexivity|]. split; [exact Hnd|].
  destruct (stop_cancels_queue example_world 1%positive example_data 3
              eq_refl eq_refl Hnd Hreqs ltac:(simpl; lia))
    as (w' & evs & Hrun & Hq & Ht & Hevs & _).
  exists w'. split; [exact Hrun|]. split; [exact Hq|].
  rewrite Ht, Hevs. reflexivity.
Defined.

(** * Further properties *)

(** ** Registration and hot-unplug together *)

Lemma filter_all {A} (P : A → Prop) `{!∀ x, Decision (P x)} (l : list A) :
  (∀ x, x ∈ l → P x) → filter P l = l.
Proof.
  induction l as [|x l IH]; intros Hall; [done|].
  rewrite filter_cons_True by (apply Hall; left).
  f_equal. apply IH. intros y Hy. apply Hall. by right.
Qed.

Lemma registerCameras_members regs : ∀ w,
  ∃ w', registerCameras regs w = Ok (tt, w') ∧
        cameras_ w' = cameras_ w ++ regs.*1 ∧
        manager_cameras w' = manager_cameras w ++ regs.*1 ∧
        trace w' = trace w ++ (EvAddCamera <$> regs.*1) ∧
        camera_owners w' = camera_owners w ∧
        disconnected w' = disconnected w ∧
        slots w' = slots w ∧
        requests w' = requests w ∧
        buffers w' = buffers w.
Proof.
  induction regs as [|[c d] regs IH]; intros w.
  - exists w. simpl. by rewrite !app_nil_r.
  - simpl. rewrite (bind_Ok _ _ _ _ _ (registerCamera_ok w c d)).
    destruct (IH (emit (EvAddCamera c)
                    (set_manager_cameras (λ l, l ++ [c])
                       (set_cameras (λ l, l ++ [c])
                          (set_cameraData
                             <[c := mkCameraData (Some c) (queuedRequests_ d)]> w)))))
      as (w' & Hrun & Hcams & Hmgr & Htr & Hframe).
    exists w'. split; [done|]. rewrite Hcams, Hmgr, Htr. simpl.
    by rewrite <- !app_assoc.
Qed.

(** X1. Every [registerCamera] call, also one that registers a camera again,
    adds one weak reference to the handler and hands one shared reference to
    the camera manager, in call order; afterwards every registered camera is
    alive, and requests, buffers and signal connections are untouched. *)
Theorem registerCameras_references regs w :
  ∃ w', registerCameras regs w = Ok (tt, w') ∧
        cameras_ w' = cameras_ w ++ regs.*1 ∧
        manager_cameras w' = manager_cameras w ++ regs.*1 ∧
        trace w' = trace w ++ (EvAddCamera <$> regs.*1) ∧
        (∀ c, c ∈ regs.*1 → resolves w' c = true) ∧
        slots w' = slots w ∧ requests w' = requests w ∧ buffers w' = buffers w.
Proof.
  destruct (registerCameras_members regs w)
    as (w' & Hrun & Hcams & Hmgr & Htr & _ & _ & Hsl & Hreq & Hbuf).
  exists w'. repeat split; try done.
  intros c Hc. unfold resolves. rewrite Hmgr.
  apply orb_true_iff. left. apply bool_decide_eq_true_2, elem_of_app. by right.
Qed.

Lemma mediaDeviceDisconnected_unfold w media w1 :
  disconnect_each (cameras_ w)
    (emit (EvSignalDisconnect media) (set_slots (erase media) w)) = Ok (tt, w1) →
  mediaDeviceDisconnected media w = Ok (tt, set_cameras (λ _, []) w1).
Proof.
  intros Hrun.
  set (w0 := emit (EvSignalDisconnect media) (set_slots (erase media) w)) in *.
  assert (mediaDeviceDisconnected media w =
            (if bool_decide (cameras_ w = []) then ret tt else disconnect) w0) as ->
    by done.
  destruct (cameras_ w) as [|ptr rest] eqn:Hcams.
  - simpl in Hrun. injection Hrun as <-. simpl. unfold ret. mstep. f_equal. f_equal.
    unfold w0, set_cameras, emit, set_slots. simpl. by rewrite Hcams.
  - rewrite bool_decide_eq_false_2 by done.
    unfold disconnect. mstep. change (cameras_ w0) with (cameras_ w).
    rewrite Hcams. fold (disconnect_each (ptr :: rest)). by rewrite Hrun.
Qed.

Lemma remove_first_app_head c m l : c ∉ m → remove_first c (m ++ c :: l) = m ++ l.
Proof.
  induction m as [|x m IH]; intros Hc; simpl.
  - by rewrite decide_True.
  - apply not_elem_of_cons in Hc as [Hne Hc].
    rewrite decide_False by done. by rewrite IH.
Qed.

Lemma remove_all_registered cs : ∀ m,
  NoDup cs → (∀ c, c ∈ cs → c ∉ m) →
  foldl (λ l c, remove_first c l) (m ++ cs) cs = m.
Proof.
  induction cs as [|c cs IH]; intros m Hnd Hm; simpl.
  - by rewrite app_nil_r.
  - apply NoDup_cons in Hnd as [Hc Hnd].
    rewrite remove_first_app_head by (apply Hm; left).
    apply IH; [done|]. intros c' Hc'. apply Hm. by right.
Qed.

Lemma no_notification_disconnect_calls cs : no_notification (disconnect_calls cs).
Proof.
  unfold no_notification, disconnect_calls. apply Forall_forall. intros e He.
  apply list_elem_of_bind in He as (c & He & _).
  apply elem_of_cons in He as [->|He]; [done|].
  by apply list_elem_of_singleton in He as ->.
Qed.

(** X2. Registering distinct cameras that the manager does not hold yet, on
    a handler without cameras, and then unplugging the device undoes the
    registration on the manager's side: every camera is disconnected and
    removed once, in registration order, the manager holds what it held
    before, and the handler references no camera. *)
Theorem register_then_unplug regs w media :
  NoDup regs.*1 →
  cameras_ w = [] →
  (∀ c, c ∈ regs.*1 → c ∉ manager_cameras w) →
  ∃ w', (registerCameras regs ;; mediaDeviceDisconnected media) w = Ok (tt, w') ∧
        manager_cameras w' = manager_cameras w ∧
        cameras_ w' = [] ∧
        disconnected w' = list_to_set regs.*1 ∪ disconnected w ∧
        trace w' = trace w ++ (EvAddCamera <$> regs.*1)
                   ++ EvSignalDisconnect media :: disconnect_calls regs.*1.
Proof.
  intros Hnd Hcams Hm.
  destruct (registerCameras_members regs w)
    as (w1 & Hrun1 & Hcams1 & Hmgr1 & Htr1 & Hown1 & Hdis1 & _).
  rewrite Hcams in Hcams1. simpl in Hcams1.
  set (w0 := emit (EvSignalDisconnect media) (set_slots (erase media) w1)).
  destruct (disconnect_each_spec (cameras_ w1) w0)
    as (w2 & cs & Hrun2 & Htr2 & _ & _ & _ & Hfilter & Hdis2 & _ & _ & _ & _ & _ & _ & Hmgr2).
  rewrite Hcams1 in Hfilter. specialize (Hfilter Hnd).
  assert (cs = regs.*1) as ->.
  { rewrite Hfilter. apply filter_all. intros c Hc.
    unfold resolves. simpl. rewrite Hmgr1.
    apply orb_true_iff. left. apply bool_decide_eq_true_2, elem_of_app. by right. }
  exists (set_cameras (λ _, []) w2).
  split.
  { rewrite (bind_Ok _ _ _ _ _ Hrun1). by apply mediaDeviceDisconnected_unfold. }
  simpl. rewrite Hmgr2, Hdis2, Htr2. simpl. rewrite Hmgr1, Hdis1, Htr1.
  split; [by apply remove_all_registered|]. split; [done|]. split; [done|].
  by rewrite <- !app_assoc.
Qed.

(** X3. Unplugging a device leaves the camera data alone: every camera keeps
    its data and its queue of requests, no request or buffer is completed or
    cancelled and none of the events is a completion notification. *)
Theorem unplug_keeps_queues w media :
  ∃ w' evs,
    mediaDeviceDisconnected media w = Ok (tt, w') ∧
    cameraData_ w' = cameraData_ w ∧
    (∀ camera, queue_of w' camera = queue_of w camera) ∧
    requests w' = requests w ∧
    buffers w' = buffers w ∧
    trace w' = trace w ++ evs ∧
    no_notification evs.
Proof.
  set (w0 := emit (EvSignalDisconnect media) (set_slots (erase media) w)).
  destruct (disconnect_each_spec (cameras_ w) w0)
    as (w1 & cs & Hrun & Htr & _ & _ & _ & _ & _ & Hcd & _ & _ & _ & Hreq & Hbuf & _).
  exists (set_cameras (λ _, []) w1), (EvSignalDisconnect media :: disconnect_calls cs).
  split; [by apply mediaDeviceDisconnected_unfold|].
  simpl. rewrite Hcd, Hreq, Hbuf, Htr. simpl.
  repeat split; try done.
  - intros camera. unfold queue_of. simpl. by rewrite Hcd.
  - by rewrite <- app_assoc.
  - apply Forall_cons. split; [done|]. apply no_notification_disconnect_calls.
Qed.

(** X4. A second disconnection report, for the same or another device, finds
    the handler without cameras: it only disconnects the signal and calls
    neither a camera nor the camera manager. *)
Theorem unplug_twice w media media' :
  ∃ w1 w2,
    mediaDeviceDisconnected media w = Ok (tt, w1) ∧
    mediaDeviceDisconnected media' w1 = Ok (tt, w2) ∧
    w2 = emit (EvSignalDisconnect media') (set_slots (erase media') w1).
Proof.
  set (w0 := emit (EvSignalDisconnect media) (set_slots (erase media) w)).
  destruct (disconnect_each_spec (cameras_ w) w0) as (w1 & cs & Hrun & _).
  exists (set_cameras (λ _, []) w1). eexists.
  split; [by apply mediaDeviceDisconnected_unfold|]. split; [|done].
  done.
Qed.

Lemma erase_app x l1 l2 : erase x (l1 ++ l2) = erase x l1 ++ erase x l2.
Proof. unfold erase. apply filter_app. Qed.

(** X5. However often [hotplugMediaDevice] has been called for a device, one
    disconnection report of that device leaves the handler connected to it no
    more, while the connections to the other devices stay, in order. *)
Theorem hotplug_then_unplug w media n :
  ∃ w1 w2,
    Nat.iter n (λ m, hotplugMediaDevice media ;; m) (ret tt) w = Ok (tt, w1) ∧
    slots w1 = slots w ++ replicate n media ∧
    mediaDeviceDisconnected media w1 = Ok (tt, w2) ∧
    slots w2 = erase media (slots w) ∧
    (media ∉ slots w2) ∧
    (∀ m, m ≠ media → filter (λ x, x = m) (slots w2) = filter (λ x, x = m) (slots w)).
Proof.
  assert (∃ w1, Nat.iter n (λ m, hotplugMediaDevice media ;; m) (ret tt) w = Ok (tt, w1) ∧
                slots w1 = slots w ++ replicate n media) as (w1 & Hrun1 & Hsl1).
  { revert w. induction n as [|n IH]; intros w.
    - exists w. simpl. by rewrite app_nil_r.
    - destruct (IH (emit (EvSignalConnect media) (set_slots (λ l, l ++ [media]) w)))
        as (w1 & Hrun & Hsl).
      exists w1. split; [exact Hrun|]. rewrite Hsl. simpl.
      by rewrite <- app_assoc. }
  set (w0 := emit (EvSignalDisconnect media) (set_slots (erase media) w1)).
  destruct (disconnect_each_spec (cameras_ w1) w0)
    as (w2 & cs & Hrun & _ & _ & _ & _ & _ & _ & _ & _ & _ & Hsl2 & _).
  exists w1, (set_cameras (λ _, []) w2).
  split; [done|]. split; [done|].
  split; [by apply mediaDeviceDisconnected_unfold|].
  assert (slots (set_cameras (λ _, []) w2) = erase media (slots w)) as ->.
  { simpl. rewrite Hsl2. simpl. rewrite Hsl1, erase_app.
    assert (erase media (replicate n media) = []) as ->.
    { apply erase_nil_iff. intros y Hy. by apply elem_of_replicate in Hy as [-> _]. }
    by rewrite app_nil_r. }
  split; [done|]. split.
  - rewrite elem_of_erase. by intros [? _].
  - intros m Hne. unfold erase. rewrite list_filter_filter.
    apply filter_ext_elem_of. intros x _. split; [by intros [? _]|].
    intros ->. by split.
Qed.

(** ** Stopping, again *)

Lemma stop_empty_queue_ok w camera data fuel :
  cameraData_ w !! camera = Some data →
  queuedRequests_ data = [] →
  0 < fuel →
  stop fuel camera w = Ok (tt, w).
Proof.
  intros H Hq Hfuel. unfold stop.
  rewrite (bind_Ok _ _ _ _ _ (cameraData_Some _ _ _ H)).
  destruct fuel as [|fuel]; [lia|]. simpl.
  rewrite (bind_Ok _ _ _ _ _ (bind_Ok _ _ _ _ _ (queuedRequests_ok _ _ _ H))).
  by rewrite Hq.
Qed.

Lemma stop_ok w camera data fuel :
  cameraData_ w !! camera = Some data →
  resolves w camera = true →
  NoDup (queuedRequests_ data) →
  (∀ r, r ∈ queuedRequests_ data →
        ∃ rq, requests w !! r = Some rq ∧ NoDup (pending_ rq) ∧
              (∀ b, b ∈ pending_ rq → is_Some (buffers w !! b)) ∧
              length (pending_ rq) < fuel) →
  length (queuedRequests_ data) < fuel →
  stop fuel camera w = Ok (tt, after_stop camera data (queuedRequests_ data) w).
Proof.
  intros H Hc Hnd Hreqs Hfuel. unfold stop.
  rewrite (bind_Ok _ _ _ _ _ (cameraData_Some _ _ _ H)). by apply stop_loop.
Qed.

(** X6. Stopping a registered camera whose queue is empty changes nothing
    and signals nothing; the camera object is not touched, so this holds even
    when the camera has already been destroyed. *)
Theorem stop_empty_queue w camera data fuel :
  cameraData_ w !! camera = Some data →
  queuedRequests_ data = [] →
  0 < fuel →
  stop fuel camera w = Ok (tt, w).
Proof.
  intros H Hq Hfuel. unfold stop.
  rewrite (bind_Ok _ _ _ _ _ (cameraData_Some _ _ _ H)).
  destruct fuel as [|fuel]; [lia|].
  change (while (S fuel) ?c ?b) with (x ← c; if x : bool then b ;; while fuel c b else ret tt).
  rewrite (bind_Ok _ _ _ _ _ (bind_Ok _ _ _ _ _ (queuedRequests_ok _ _ _ H))).
  by rewrite Hq.
Qed.

(** X7. Every operation that looks up the data of the camera is a fatal
    assertion failure for a camera that is not registered, whatever the
    request: [cameraData], [queueRequest], [completeRequest] and [stop]. *)
Theorem unregistered_camera_is_fatal w camera :
  cameraData_ w !! camera = None →
  cameraData camera w = Fatal ∧
  (∀ request, queueRequest camera request w = Fatal) ∧
  (∀ request, completeRequest camera request w = Fatal) ∧
  (∀ fuel, stop fuel camera w = Fatal).
Proof.
  intros H. pose proof (cameraData_None _ _ H) as Hfatal.
  split; [done|]. split; [|split].
  - intros request. unfold queueRequest. by apply bind_Fatal.
  - intros request. unfold completeRequest. by apply bind_Fatal.
  - intros fuel. unfold stop. by apply bind_Fatal.
Qed.

(** X8. Stopping twice is stopping once: after [stop] has drained the queue,
    a second [stop] returns without changing or signalling anything. *)
Theorem stop_twice w camera data fuel :
  cameraData_ w !! camera = Some data →
  resolves w camera = true →
  NoDup (queuedRequests_ data) →
  (∀ r, r ∈ queuedRequests_ data →
        ∃ rq, requests w !! r = Some rq ∧ NoDup (pending_ rq) ∧
              (∀ b, b ∈ pending_ rq → is_Some (buffers w !! b)) ∧
              length (pending_ rq) < fuel) →
  length (queuedRequests_ data) < fuel →
  ∃ w', stop fuel camera w = Ok (tt, w') ∧ stop fuel camera w' = Ok (tt, w').
Proof.
  intros H Hc Hnd Hreqs Hfuel.
  exists (after_stop camera data (queuedRequests_ data) w).
  split; [by apply stop_ok|].
  apply (stop_empty_queue_ok _ _ (mkCameraData (camera_ data) [])); [|done|lia].
  simpl. apply lookup_insert_eq.
Qed.

Lemma run_calls_queue_only camera rs : ∀ w data,
  cameraData_ w !! camera = Some data →
  run_calls camera (QueueRequest <$> rs) w =
    Ok (tt, set_cameraData
              <[camera := mkCameraData (camera_ data) (queuedRequests_ data ++ rs)]> w).
Proof.
  induction rs as [|r rs IH]; intros w data H.
  - simpl. unfold ret. mstep. f_equal. f_equal.
    destruct w, data. unfold set_cameraData. simpl in *.
    by rewrite app_nil_r, insert_id.
  - simpl. rewrite (bind_Ok _ _ _ _ _
                      (bind_Ok _ _ _ _ _ (queueRequest_ok _ _ r _ H))).
    simpl.
    rewrite (IH _ (mkCameraData (camera_ data) (queuedRequests_ data ++ [r])))
      by (simpl; apply lookup_insert_eq).
    f_equal. f_equal. unfold set_cameraData. simpl.
    by rewrite insert_insert_eq, <- app_assoc.
Qed.

(** X9. Requests that are queued and then stopped are cancelled in the order
    in which they were queued, behind the requests that were in the queue
    already: each gets its buffer notifications and then its RequestCancelled
    notification, and the queue ends up empty. *)
Theorem queue_then_stop w camera data rs fuel :
  cameraData_ w !! camera = Some data →
  resolves w camera = true →
  NoDup (queuedRequests_ data ++ rs) →
  (∀ r, r ∈ queuedRequests_ data ++ rs →
        ∃ rq, requests w !! r = Some rq ∧ NoDup (pending_ rq) ∧
              (∀ b, b ∈ pending_ rq → is_Some (buffers w !! b)) ∧
              length (pending_ rq) < fuel) →
  length (queuedRequests_ data ++ rs) < fuel →
  ∃ w' evs,
    (run_calls camera (QueueRequest <$> rs) ;; stop fuel camera) w = Ok (tt, w') ∧
    queue_of w' camera = [] ∧
    trace w' = trace w ++ evs ∧
    evs = stop_notifications camera (requests w) (queuedRequests_ data ++ rs) ∧
    filter (λ e, is_request_notification e) evs =
      map (λ r, EvRequestComplete camera r RequestCancelled)
          (queuedRequests_ data ++ rs).
Proof.
  intros H Hc Hnd Hreqs Hfuel.
  set (data1 := mkCameraData (camera_ data) (queuedRequests_ data ++ rs)).
  set (w1 := set_cameraData <[camera := data1]> w).
  exists (after_stop camera data1 (queuedRequests_ data ++ rs) w1).
  exists (stop_notifications camera (requests w) (queuedRequests_ data ++ rs)).
  split.
  { rewrite (bind_Ok _ _ _ _ _ (run_calls_queue_only camera rs w data H)).
    apply (stop_ok w1 camera data1); try done.
    simpl. apply lookup_insert_eq. }
  split.
  { unfold queue_of. simpl. by rewrite lookup_insert_eq. }
  split; [done|]. split; [done|].
  apply filter_request_stop_notifications.
Qed.

Lemma cancel_requests_not_elem_of q : ∀ reqs r,
  r ∉ q → cancel_requests q reqs !! r = reqs !! r.
Proof.
  induction q as [|x q IH]; intros reqs r Hr; [done|].
  apply not_elem_of_cons in Hr as [Hne Hr].
  simpl. rewrite IH by done. by rewrite lookup_delete_ne.
Qed.

Lemma cancel_buffers_not_elem_of p : ∀ bufs b,
  b ∉ p → cancel_buffers p bufs !! b = bufs !! b.
Proof.
  induction p as [|x p IH]; intros bufs b Hb; [done|].
  apply not_elem_of_cons in Hb as [Hne Hb].
  simpl. rewrite IH by done. by rewrite lookup_insert_ne.
Qed.

(** X10. [stop] reaches nothing but the queue it drains: the data of the
    other cameras, the requests that are not in the queue, the buffers that
    are pending in no queued request, the camera references and the signal
    connections are as before. *)
Theorem stop_touches_only_its_queue w camera data fuel :
  cameraData_ w !! camera = Some data →
  resolves w camera = true →
  NoDup (queuedRequests_ data) →
  (∀ r, r ∈ queuedRequests_ data →
        ∃ rq, requests w !! r = Some rq ∧ NoDup (pending_ rq) ∧
              (∀ b, b ∈ pending_ rq → is_Some (buffers w !! b)) ∧
              length (pending_ rq) < fuel) →
  length (queuedRequests_ data) < fuel →
  ∃ w', stop fuel camera w = Ok (tt, w') ∧
        (∀ c, c ≠ camera → cameraData_ w' !! c = cameraData_ w !! c) ∧
        (∀ r, r ∉ queuedRequests_ data → requests w' !! r = requests w !! r) ∧
        (∀ b, (∀ r, r ∈ queuedRequests_ data → b ∉ pending_of (requests w) r) →
              buffers w' !! b = buffers w !! b) ∧
        cameras_ w' = cameras_ w ∧
        manager_cameras w' = manager_cameras w ∧
        disconnected w' = disconnected w ∧
        slots w' = slots w.
Proof.
  intros H Hc Hnd Hreqs Hfuel.
  exists (after_stop camera data (queuedRequests_ data) w).
  split; [by apply stop_ok|]. simpl. repeat split; try done.
  - intros c Hne. by rewrite lookup_insert_ne.
  - intros r Hr. by apply cancel_requests_not_elem_of.
  - intros b Hb. apply cancel_buffers_not_elem_of.
    intros (r & Hin & Hr)%list_elem_of_bind. by apply (Hb r).
Qed.

(** ** Buffers completing in any order *)

Lemma erase_Permutation b bs p : NoDup p → b :: bs ≡ₚ p → bs ≡ₚ erase b p.
Proof.
  intros Hnd Hp. unfold erase. rewrite <- Hp.
  rewrite <- Hp in Hnd. apply NoDup_cons in Hnd as [Hb _].
  fold (erase b (b :: bs)). by rewrite erase_head.
Qed.

(** X11. When the pending buffers of a request complete one by one, in any
    order, every call of [completeBuffer] but the last returns false and the
    last one returns true; each call fires its notification, in the order of
    the calls; the request is left with no pending buffer, in the status it
    had, and still in its queue. *)
Theorem completeBuffers_any_order camera request bs0 : ∀ bl w rq,
  resolves w camera = true →
  requests w !! request = Some rq →
  NoDup (pending_ rq) →
  bs0 ++ [bl] ≡ₚ pending_ rq →
  ∃ w', completeBuffers camera request (bs0 ++ [bl]) w =
          Ok (replicate (length bs0) false ++ [true], w') ∧
        requests w' = <[request := mkRequest [] (status_ rq)]> (requests w) ∧
        trace w' = trace w ++
          map (λ b, EvBufferCompleted camera request b (buffers w !! b)) (bs0 ++ [bl]) ∧
        buffers w' = buffers w ∧
        cameraData_ w' = cameraData_ w.
Proof.
  induction bs0 as [|b bs0 IH]; intros bl w rq Hc Hr Hnd Hp.
  - simpl in *. apply Permutation_singleton_l in Hp.
    rewrite (bind_Ok _ _ _ _ _ (completeBuffer_ok w camera request bl rq Hc Hr)).
    rewrite <- Hp. rewrite erase_head by apply not_elem_of_nil.
    eexists. split; [done|]. done.
  - simpl in Hp. pose proof (erase_Permutation _ _ _ Hnd Hp) as Hp'.
    change (completeBuffers camera request ((b :: bs0) ++ [bl]) w) with
      ((last ← completeBuffer camera request b;
        rest ← completeBuffers camera request (bs0 ++ [bl]);
        ret (last :: rest)) w).
    rewrite (bind_Ok _ _ _ _ _ (completeBuffer_ok w camera request b rq Hc Hr)).
    rewrite bool_decide_eq_false_2.
    2:{ intros E. rewrite E in Hp'. apply Permutation_nil_r in Hp'.
        by destruct bs0. }
    set (w1 := set_requests _ _).
    destruct (IH bl w1 (mkRequest (erase b (pending_ rq)) (status_ rq)))
      as (w' & Hrun & Hreq & Htr & Hbuf & Hcd); try done.
    { simpl. apply lookup_insert_eq. }
    { simpl. by apply NoDup_filter. }
    exists w'. rewrite (bind_Ok _ _ _ _ _ Hrun).
    split; [done|]. rewrite Hreq, Htr, Hbuf, Hcd. simpl.
    split; [by rewrite insert_insert_eq|]. split; [|done].
    by rewrite <- app_assoc.
Qed.

(** ** Constructing factories *)

Section construction.
Import PipelineHandlerFactory.

Lemma construct_ok name s :
  ∃ line, construct name s =
            Ok (mkRegistry (<[fresh (dom (names s)) := name]> (names s))
                  (factories s ++ [fresh (dom (names s))]) (log s ++ [line])).
Proof.
  unfold construct, registerType. simpl. rewrite lookup_insert_eq. eauto.
Qed.

(** X12. Constructing factories registers them: the list of factories grows
    by one new object per construction, in construction order, behind the
    entries it had; the new objects are distinct from each other and from the
    ones that existed, each carries the name it was constructed with, equal
    names included, the names of the existing factories are unchanged and
    one line is logged per registration. *)
Theorem constructs_register ns : ∀ s,
  ∃ s' ptrs,
    constructs ns s = Ok s' ∧
    factories s' = factories s ++ ptrs ∧
    NoDup ptrs ∧
    (∀ f, f ∈ ptrs → f ∉ dom (names s)) ∧
    Forall2 (λ f name, names s' !! f = Some name) ptrs ns ∧
    (∀ f, f ∈ dom (names s) → names s' !! f = names s !! f) ∧
    length (log s') = length (log s) + length ns.
Proof.
  induction ns as [|name ns IH]; intros s.
  - exists s, []. simpl. rewrite app_nil_r.
    split; [done|]. split; [done|]. split; [apply NoDup_nil_2|].
    split; [intros f Hf; by apply not_elem_of_nil in Hf|].
    split; [apply Forall2_nil_2|]. split; [done | lia].
  - destruct (construct_ok name s) as [line Hc].
    set (this := fresh (dom (names s))) in *.
    assert (this ∉ dom (names s)) as Hfresh by apply is_fresh.
    destruct (IH (mkRegistry (<[this := name]> (names s))
                    (factories s ++ [this]) (log s ++ [line])))
      as (s' & ptrs & Hrun & Hfs & Hnd & Hnew & Hnames & Hold & Hlog).
    simpl in *. rewrite dom_insert_L in Hnew, Hold.
    exists s', (this :: ptrs). rewrite Hc. split; [done|].
    split; [by rewrite Hfs, <- app_assoc|]. split.
    { apply NoDup_cons. split; [|done]. intros Hin. apply (Hnew _ Hin). set_solver. }
    split.
    { intros f [->|Hf]%elem_of_cons; [done|]. specialize (Hnew f Hf). set_solver. }
    split.
    { apply Forall2_cons. split; [|done].
      rewrite Hold by set_solver. apply lookup_insert_eq. }
    split.
    { intros f Hf. rewrite Hold by set_solver. apply lookup_insert_ne.
      by intros <-. }
    rewrite Hlog, length_app. simpl. lia.
Qed.

End construction.

(** ** What queueing and completing leave alone *)

Lemma bind_inv_Ok {A B} (m : M A) (k : A → M B) w b w'' :
  (m ≫= k) w = Ok (b, w'') → ∃ a w', m w = Ok (a, w') ∧ k a w' = Ok (b, w'').
Proof.
  unfold mbind, M_bind. destruct (m w) as [[a w']| | |]; try done. eauto.
Qed.

Lemma same_outside_refl camera w : same_outside camera w w.
Proof. by repeat split. Qed.

Lemma same_outside_trans camera w1 w2 w3 :
  same_outside camera w1 w2 → same_outside camera w2 w3 → same_outside camera w1 w3.
Proof.
  intros (H1 & H2 & H3 & H4 & H5 & H6 & H7 & H8) (G1 & G2 & G3 & G4 & G5 & G6 & G7 & G8).
  repeat split; try congruence.
  - intros c Hne. by rewrite G1, H1.
  - intros r rq Hr. by apply H2, G2.
Qed.

Lemma queueRequest_inv camera request w z w' :
  queueRequest camera request w = Ok (z, w') →
  ∃ data, cameraData_ w !! camera = Some data ∧
          w' = set_cameraData
                 <[camera := mkCameraData (camera_ data)
                               (queuedRequests_ data ++ [request])]> w.
Proof.
  intros Hrun. destruct (cameraData_ w !! camera) as [data|] eqn:H.
  - exists data. split; [done|].
    rewrite (queueRequest_ok _ _ request _ H) in Hrun. by injection Hrun.
  - unfold queueRequest in Hrun.
    by rewrite (bind_Fatal _ _ _ (cameraData_None _ _ H)) in Hrun.
Qed.

Lemma bind_Undefined {A B} (m : M A) (k : A → M B) w :
  m w = Undefined → (m ≫= k) w = Undefined.
Proof. intros H. unfold mbind, M_bind. by rewrite H. Qed.

Lemma completeRequest_inv camera request w w' :
  completeRequest camera request w = Ok (tt, w') →
  ∃ data rest,
    cameraData_ w !! camera = Some data ∧
    queuedRequests_ data = request :: rest ∧
    w' = set_requests (delete request)
           (emit (EvRequestComplete camera request RequestComplete)
              (set_cameraData <[camera := mkCameraData (camera_ data) rest]> w)).
Proof.
  intros Hrun. destruct (cameraData_ w !! camera) as [data|] eqn:H.
  2:{ by rewrite (completeRequest_unregistered _ _ _ H) in Hrun. }
  destruct (queuedRequests_ data) as [|f rest] eqn:Hq.
  { by rewrite (completeRequest_empty_queue _ _ _ _ H Hq) in Hrun. }
  exists data, rest. split; [done|].
  unfold completeRequest in Hrun.
  rewrite (bind_Ok _ _ _ _ _ (cameraData_Some _ _ _ H)), Hq in Hrun.
  change ((front (f :: rest) ≫= ?k) w) with (k f w) in Hrun. cbv beta in Hrun.
  destruct (decide (request = f)) as [<-|Hne].
  2:{ rewrite bind_Fatal in Hrun; [done|].
      unfold ASSERT. by rewrite bool_decide_eq_false_2. }
  split; [done|].
  assert (ASSERT (bool_decide (request = request)) w = Ok (tt, w)) as Hassert
    by (unfold ASSERT; by rewrite bool_decide_eq_true_2).
  rewrite (bind_Ok _ _ _ _ _ Hassert) in Hrun.
  rewrite (bind_Ok _ _ _ _ _ (pop_front_ok _ _ _ _ _ H Hq)) in Hrun.
  set (w1 := set_cameraData _ w) in *.
  destruct (requests w !! request) as [rq|] eqn:Hr.
  2:{ rewrite bind_Undefined in Hrun; [done|].
      unfold Request_complete. apply bind_Undefined.
      unfold Request_deref. mstep. by rewrite Hr. }
  rewrite (bind_Ok _ _ _ _ _ (Request_complete_ok w1 _ rq RequestComplete Hr)) in Hrun.
  destruct (resolves w camera) eqn:Hc.
  - rewrite (Camera_requestComplete_ok _ _ _ (mkRequest (pending_ rq) RequestComplete))
      in Hrun; [|done|simpl; apply lookup_insert_eq].
    injection Hrun as <-. unfold set_requests, emit. simpl.
    by rewrite delete_insert_eq.
  - unfold Camera_requestComplete in Hrun. rewrite bind_Undefined in Hrun; [done|].
    unfold Camera_deref. mstep. change (resolves _ camera) with (resolves w camera).
    by rewrite Hc.
Qed.

Lemma call_same_outside camera c w w' :
  call camera c w = Ok (tt, w') → same_outside camera w w'.
Proof.
  destruct c as [r|r]; simpl; intros Hrun.
  - apply bind_inv_Ok in Hrun as (z & w1 & Hq & Hret). injection Hret as <-.
    apply queueRequest_inv in Hq as (data & _ & ->).
    repeat split; try done. intros c Hne. simpl. by rewrite lookup_insert_ne.
  - apply completeRequest_inv in Hrun as (data & rest & _ & _ & ->).
    repeat split; try done.
    + intros c Hne. simpl. by rewrite lookup_insert_ne.
    + intros r' rq. simpl. intros Hr'.
      apply lookup_delete_Some in Hr'. by destruct Hr'.
Qed.

Lemma run_calls_same_outside camera cs : ∀ w w',
  run_calls camera cs w = Ok (tt, w') → same_outside camera w w'.
Proof.
  induction cs as [|c cs IH]; intros w w' Hrun.
  - injection Hrun as <-. apply same_outside_refl.
  - simpl in Hrun. apply bind_inv_Ok in Hrun as ([] & w1 & Hcall & Hrest).
    eapply same_outside_trans; [by eapply call_same_outside | by apply IH].
Qed.

(** X13. Whatever sequence of [queueRequest] and [completeRequest] calls is
    made on one camera, if it returns then the data and queues of all other
    cameras, all buffers, the camera references of the handler and of the
    manager and the signal connections are as before, and every request that
    still exists is exactly as it was: requests are taken away when they
    complete, never modified. *)
Theorem queue_calls_leave_the_rest camera cs w w' :
  run_calls camera cs w = Ok (tt, w') →
  (∀ c, c ≠ camera → queue_of w' c = queue_of w c) ∧
  (∀ c, c ≠ camera → cameraData_ w' !! c = cameraData_ w !! c) ∧
  (∀ r rq, requests w' !! r = Some rq → requests w !! r = Some rq) ∧
  buffers w' = buffers w ∧
  cameras_ w' = cameras_ w ∧
  manager_cameras w' = manager_cameras w ∧
  slots w' = slots w.
Proof.
  intros Hrun.
  destruct (run_calls_same_outside camera cs w w' Hrun)
    as (H1 & H2 & H3 & H4 & H5 & _ & _ & H8).
  repeat split; try done.
  intros c Hne. unfold queue_of. by rewrite H1.
Qed.

(** * The further properties at work on the example *)

Lemma example_requests_live fuel r :
  2 < fuel →
  r ∈ [10%positive; 11%positive; 12%positive] →
  ∃ rq, requests example_world !! r = Some rq ∧ NoDup (pending_ rq) ∧
        (∀ b, b ∈ pending_ rq → is_Some (buffers example_world !! b)) ∧
        length (pending_ rq) < fuel.
Proof.
  intros Hfuel Hr. elem_cases Hr.
  - exists (mkRequest [100%positive; 101%positive] RequestPending).
    split; [reflexivity|]. split; [compute_done|]. split; [|simpl; lia].
    intros b Hb. simpl in Hb. elem_cases Hb; vm_compute; eauto.
  - exists (mkRequest [102%positive] RequestPending).
    split; [reflexivity|]. split; [compute_done|]. split; [|simpl; lia].
    intros b Hb. simpl in Hb. elem_cases Hb; vm_compute; eauto.
  - exists (mkRequest [] RequestPending).
    split; [reflexivity|]. split; [compute_done|]. split; [|simpl; lia].
    intros b Hb. simpl in Hb. elem_cases Hb.
Qed.

Lemma example_queue_live fuel r :
  2 < fuel →
  r ∈ queuedRequests_ example_data →
  ∃ rq, requests example_world !! r = Some rq ∧ NoDup (pending_ rq) ∧
        (∀ b, b ∈ pending_ rq → is_Some (buffers example_world !! b)) ∧
        length (pending_ rq) < fuel.
Proof.
  intros Hfuel Hr. apply example_requests_live; [done|].
  unfold example_data in Hr. simpl in Hr. elem_cases Hr; compute_done.
Qed.

Lemma register_then_unplug_witness :
  NoDup [1%positive; 2%positive] ∧
  cameras_ fresh_world = [] ∧
  ∃ w', (registerCameras [(1%positive, mkCameraData None []);
                          (2%positive, mkCameraData None [])] ;;
         mediaDeviceDisconnected 7%positive) fresh_world = Ok (tt, w') ∧
        manager_cameras w' = [] ∧
        cameras_ w' = [] ∧
        trace w' = [EvAddCamera 1%positive; EvAddCamera 2%positive;
                    EvSignalDisconnect 7%positive;
                    EvCameraDisconnect 1%positive; EvRemoveCamera 1%positive;
                    EvCameraDisconnect 2%positive; EvRemoveCamera 2%positive].
Proof.
  assert (NoDup [1%positive; 2%positive]) as Hnd by compute_done.
  split; [exact Hnd|]. split; [reflexivity|].
  destruct (register_then_unplug
              [(1%positive, mkCameraData None []); (2%positive, mkCameraData None [])]
              fresh_world 7%positive Hnd eq_refl
              (λ c _, not_elem_of_nil c))
    as (w' & Hrun & Hmgr & Hcams & _ & Htr).
  exists w'. split; [exact Hrun|]. split; [exact Hmgr|]. split; [exact Hcams|exact Htr].
Defined.

Lemma stop_empty_queue_witness :
  resolves (set_cameraData <[3%positive := mkCameraData (Some 3%positive) []]>
              example_world) 3%positive = false ∧
  stop 1 3%positive
       (set_cameraData <[3%positive := mkCameraData (Some 3%positive) []]> example_world)
  = Ok (tt, set_cameraData <[3%positive := mkCameraData (Some 3%positive) []]>
              example_world).
Proof.
  split; [reflexivity|].
  apply (stop_empty_queue _ 3%positive (mkCameraData (Some 3%positive) []) 1);
    [reflexivity | reflexivity | lia].
Defined.

Lemma unregistered_camera_is_fatal_witness :
  cameraData_ example_world !! 5%positive = None ∧
  queueRequest 5%positive 10%positive example_world = Fatal ∧
  stop 3 5%positive example_world = Fatal.
Proof.
  split; [reflexivity|].
  destruct (unregistered_camera_is_fatal example_world 5%positive eq_refl)
    as (_ & Hq & _ & Hs).
  split; [apply Hq | apply Hs].
Defined.

Lemma stop_twice_witness :
  cameraData_ example_world !! 1%positive = Some example_data ∧
  resolves example_world 1%positive = true ∧
  NoDup (queuedRequests_ example_data) ∧
  ∃ w', stop 3 1%positive example_world = Ok (tt, w') ∧
        stop 3 1%positive w' = Ok (tt, w').
Proof.
  assert (NoDup (queuedRequests_ example_data)) as Hnd by compute_done.
  split; [reflexivity|]. split; [reflexivity|]. split; [exact Hnd|].
  apply (stop_twice example_world 1%positive example_data 3 eq_refl eq_refl Hnd).
  - intros r Hr. apply example_queue_live; [lia | exact Hr].
  - simpl. lia.
Defined.

Lemma queue_then_stop_witness :
  NoDup (queuedRequests_ example_data ++ [12%positive]) ∧
  ∃ w', (run_calls 1%positive (QueueRequest <$> [12%positive]) ;; stop 4 1%positive)
          example_world = Ok (tt, w') ∧
        queue_of w' 1%positive = [] ∧
        filter (λ e, is_request_notification e) (trace w') =
          [EvRequestComplete 1%positive 10%positive RequestCancelled;
           EvRequestComplete 1%positive 11%positive RequestCancelled;
           EvRequestComplete 1%positive 12%positive RequestCancelled].
Proof.
  assert (NoDup (queuedRequests_ example_data ++ [12%positive])) as Hnd by compute_done.
  split; [exact Hnd|].
  destruct (queue_then_stop example_world 1%positive example_data [12%positive] 4
              eq_refl eq_refl Hnd)
    as (w' & evs & Hrun & Hq & Htr & _ & Hfilter).
  - intros r Hr. apply example_requests_live; [lia | exact Hr].
  - simpl. lia.
  - exists w'. split; [exact Hrun|]. split; [exact Hq|].
    rewrite Htr. simpl. exact Hfilter.
Defined.

Lemma stop_touches_only_its_queue_witness :
  cameraData_ example_world !! 1%positive = Some example_data ∧
  (12%positive ∉ queuedRequests_ example_data) ∧
  ∃ w', stop 3 1%positive example_world = Ok (tt, w') ∧
        requests w' !! 12%positive = Some (mkRequest [] RequestPending) ∧
        cameras_ w' = [1%positive; 2%positive] ∧
        slots w' = [7%positive].
Proof.
  assert (12%positive ∉ queuedRequests_ example_data) as Hnot by compute_done.
  split; [reflexivity|]. split; [exact Hnot|].
  destruct (stop_touches_only_its_queue example_world 1%positive example_data 3
              eq_refl eq_refl ltac:(compute_done))
    as (w' & Hrun & _ & Hreq & _ & Hcams & _ & _ & Hsl).
  - intros r Hr. apply example_queue_live; [lia | exact Hr].
  - simpl. lia.
  - exists w'. split; [exact Hrun|]. split; [|split; [exact Hcams | exact Hsl]].
    rewrite (Hreq _ Hnot). reflexivity.
Defined.

Lemma completeBuffers_any_order_witness :
  [101%positive] ++ [100%positive] ≡ₚ [100%positive; 101%positive] ∧
  ∃ w', completeBuffers 1%positive 10%positive [101%positive; 100%positive]
          example_world = Ok ([false; true], w') ∧
        requests w' !! 10%positive = Some (mkRequest [] RequestPending) ∧
        trace w' =
          [EvBufferCompleted 1%positive 10%positive 101%positive (Some BufferPending);
           EvBufferCompleted 1%positive 10%positive 100%positive (Some BufferPending)].
Proof.
  assert ([101%positive] ++ [100%positive] ≡ₚ [100%positive; 101%positive]) as Hp
    by apply Permutation_swap.
  split; [exact Hp|].
  destruct (completeBuffers_any_order 1%positive 10%positive [101%positive]
              100%positive example_world
              (mkRequest [100%positive; 101%positive] RequestPending)
              eq_refl eq_refl ltac:(compute_done) Hp)
    as (w' & Hrun & Hreq & Htr & _).
  exists w'. split; [exact Hrun|]. split; [|exact Htr].
  rewrite Hreq. reflexivity.
Defined.

Lemma queue_calls_leave_the_rest_witness :
  ∃ w', run_calls 1%positive [CompleteRequest 10%positive; QueueRequest 12%positive]
          example_world = Ok (tt, w') ∧
        buffers w' = buffers example_world ∧
        cameras_ w' = cameras_ example_world ∧
        slots w' = slots example_world.
Proof.
  destruct (run_calls 1%positive [CompleteRequest 10%positive; QueueRequest 12%positive]
              example_world) as [[[] w']| | |] eqn:Hrun;
    [|vm_compute in Hrun; discriminate..].
  exists w'. split; [reflexivity|].
  destruct (queue_calls_leave_the_rest 1%positive
              [CompleteRequest 10%positive; QueueRequest 12%positive]
              example_world w' Hrun)
    as (_ & _ & _ & Hbuf & Hcams & _ & Hsl).
  split; [exact Hbuf|]. split; [exact Hcams | exact Hsl].
Defined.
